(** * Conformance-vector extraction and replay (cmd/tvx) and the
  seal-precommit response (extern/sector-storage): a shallow embedding.

  Go values are modelled as follows.
  - [int64], [uint], big integers: [Z] (no arithmetic of the modelled code
    can overflow except [Height - 1], which is written with its wrap).
  - [string]: [string]; [[]byte]: [list Byte.byte].
  - a pointer [*T] that the code dereferences: [option T], [None] being
    [nil]; dereferencing [nil] is a run-time panic.
  - [error]: [option error], [None] being [nil].
  - [map[cid.Cid]struct{}]: [gset Cid].
  - collaborators that live outside the modelled files (the node API, the
    execution driver, the archive writer, gzip, the file system) are
    records of functions, so that the code can be run on concrete ones. *)

From stdpp Require Import base strings list gmap pretty.
From Stdlib Require Import ZArith Lia Ascii.

Open Scope Z_scope.

(** ** Go prelude *)

Module Go.

Definition bytes := list Byte.byte.

#[global] Instance byte_eq_dec : EqDecision Byte.byte := Byte.byte_eq_dec.

(** Go errors: a message, possibly wrapping a cause ([%w]). *)
Inductive error : Type :=
| Error (msg : string)
| Wrap (msg : string) (cause : error).

Definition Errorf (msg : string) (cause : option error) : error :=
  match cause with
  | Some e => Wrap msg e
  | None => Error msg
  end.

(** Outcome of a statement sequence inside a function that returns
    [error]: it falls through with a value, the function returns a
    non-nil error, or the goroutine panics.  [Unfinished] is the outcome
    of a loop that was given too few iterations to end. *)
Inductive result (A : Type) : Type :=
| Val (a : A)
| Return (e : error)
| Panic (why : string)
| Unfinished.
Arguments Val {A} a.
Arguments Return {A} e.
Arguments Panic {A} why.
Arguments Unfinished {A}.

Definition M (S A : Type) : Type := S → result A * S.

Definition ret {S A} (a : A) : M S A := λ s, (Val a, s).
Definition bind {S A B} (m : M S A) (k : A → M S B) : M S B :=
  λ s, match m s with
       | (Val a, s') => k a s'
       | (Return e, s') => (Return e, s')
       | (Panic w, s') => (Panic w, s')
       | (Unfinished, s') => (Unfinished, s')
       end.
Definition return_err {S A} (e : error) : M S A := λ s, (Return e, s).
Definition panic {S A} (w : string) : M S A := λ s, (Panic w, s).
Definition unfinished {S A} : M S A := λ s, (Unfinished, s).
Definition gets {S A} (f : S → A) : M S A := λ s, (Val (f s), s).
Definition modify {S} (f : S → S) : M S unit := λ s, (Val tt, f s).

(** [*p] for a pointer [p]. *)
Definition deref {S A} (p : option A) : M S A :=
  match p with
  | Some a => ret a
  | None => panic "invalid memory address or nil pointer dereference"
  end.

(** [if err != nil { return wrap(err) }] *)
Definition check {S} (err : option error) (wrap : error → error) : M S unit :=
  match err with
  | Some e => return_err (wrap e)
  | None => ret tt
  end.

(** [for _, x := range l { body }] *)
Fixpoint for_range {S A} (l : list A) (body : A → M S unit) : M S unit :=
  match l with
  | [] => ret tt
  | x :: l' => bind (body x) (λ _, for_range l' body)
  end.

(** [strconv.FormatInt(n, 10)] *)
Definition FormatInt (n : Z) : string := pretty n.

(** [strings.Split(s, sep)] for a non-empty [sep]: cut at the leftmost
    occurrences of [sep], which do not overlap.  [skip] counts the
    characters of a separator still to be dropped, [cur] is the field
    read so far, reversed. *)
Fixpoint split_go (sep : string) (skip : nat) (cur : string) (s : string)
  : list string :=
  match s with
  | EmptyString => [String.rev cur]
  | String c s' =>
      match skip with
      | S k => split_go sep k cur s'
      | O =>
          if String.prefix sep s
          then String.rev cur :: split_go sep (Nat.pred (String.length sep)) "" s'
          else split_go sep O (String c cur) s'
      end
  end.
Definition Split (s sep : string) : list string := split_go sep O "" s.

(** [os.IsPathSeparator] on Unix. *)
Definition IsPathSeparator (c : Ascii.ascii) : bool :=
  bool_decide (c = "/"%char).

(** [strings.TrimSuffix], read on the reversed strings. *)
Fixpoint trim_prefix (p s : string) : option string :=
  match p, s with
  | EmptyString, _ => Some s
  | String a p', String b s' =>
      if bool_decide (a = b) then trim_prefix p' s' else None
  | String _ _, EmptyString => None
  end.
Definition TrimSuffix (s suffix : string) : string :=
  match trim_prefix (String.rev suffix) (String.rev s) with
  | Some r => String.rev r
  | None => s
  end.

(** [filepath.Ext]: scan from the end up to a path separator; the
    extension starts at the first dot met. [acc] is what was scanned. *)
Fixpoint ext_go (acc : string) (r : string) : string :=
  match r with
  | EmptyString => ""
  | String c r' =>
      if IsPathSeparator c then ""
      else if bool_decide (c = "."%char) then String c acc
      else ext_go (String c acc) r'
  end.
Definition Ext (path : string) : string := ext_go "" (String.rev path).

(** [filepath.Base] on Unix (no volume names). *)
Fixpoint drop_seps (r : string) : string :=
  match r with
  | String c r' => if IsPathSeparator c then drop_seps r' else r
  | EmptyString => r
  end.
Fixpoint last_elem (acc : string) (r : string) : string :=
  match r with
  | EmptyString => acc
  | String c r' => if IsPathSeparator c then acc else last_elem (String c acc) r'
  end.
Definition Base (path : string) : string :=
  match path with
  | EmptyString => "."
  | _ =>
      match last_elem "" (drop_seps (String.rev path)) with
      | EmptyString => "/"
      | b => b
      end
  end.

End Go.

Export Go.

Notation "x <- m ;; k" := (Go.bind m (λ x, k))
(at level 100, m at next level, right associativity,
 format "x  <-  m  ;;  '/' k").
Notation "m ';;;' k" := (Go.bind m (λ _, k))
(at level 100, right associativity, format "m  ;;;  '/' k").

(** Content identifiers and keys, as their string forms. *)
Definition Cid := string.
Definition TipSetKey := list Cid.

(** ** extern/sector-storage/dispatch.go *)

Module sectorstorage.

Record SectorCids := { Unsealed : Cid; Sealed : Cid }.

(** [storage.SectorCids{}]: both fields are [cid.Undef]. *)
Definition zeroSectorCids : SectorCids := {| Unsealed := ""; Sealed := "" |}.

Record SealPreCommitResp := {
  ErrCode : Z;
  CallID : string;
  CommR : bytes;
  CommD : bytes
}.

Section GetCids.
(** The two conversions of package [commcid]. *)
Variable ReplicaCommitmentV1ToCID : bytes → Cid * option error.
Variable DataCommitmentV1ToCID : bytes → Cid * option error.

Definition GetCids (resp : SealPreCommitResp) : SectorCids * option error :=
  let '(commR, errCommrSize) := ReplicaCommitmentV1ToCID (CommR resp) in
  match errCommrSize with
  | Some _ => (zeroSectorCids, errCommrSize)
  | None =>
      let '(commD, errCommdSize) := DataCommitmentV1ToCID (CommD resp) in
      match errCommdSize with
      | Some _ => (zeroSectorCids, errCommrSize)
      | None => ({| Unsealed := commD; Sealed := commR |}, None)
      end
  end.
End GetCids.

(** A concrete [commcid]: a commitment is 32 bytes long, and the CID is
    a prefix naming the commitment kind followed by the digest. *)
Definition hex_of (b : bytes) : string :=
  String.string_of_list_byte b.
Definition commitment_to_cid (kind : string) (b : bytes) : Cid * option error :=
  if bool_decide (length b = 32%nat)
  then (kind +:+ hex_of b, None)
  else ("", Some (Error "commitments must be 32 bytes long")).

End sectorstorage.


(** ** Collaborating packages: the data they exchange with cmd/tvx *)

(** [chain/types]: what the modelled code reads of a tipset. *)
Module types.

Record BlockHeader := {
  BlockCid : Cid;        (* b.Cid() *)
  Miner : string;
  WinCount : Z;          (* ElectionProof.WinCount *)
  ParentBaseFee : Z
}.

Record TipSet := {
  Key : TipSetKey;
  Height : Z;            (* abi.ChainEpoch, an int64 *)
  Parents : TipSetKey;
  ParentState : Cid;
  Blocks : list BlockHeader
}.

Record Message := { To : string; From : string; Nonce : Z; Params : bytes }.
Record SignedMessage := { Msg : Message; Signature : bytes }.

Record BlockMessages := {
  BlsMessages : list Message;
  SecpkMessages : list SignedMessage;
  Cids : list Cid
}.

(** [TipSetKey.String()] *)
Definition KeyString (k : TipSetKey) : string :=
  "{" +:+ String.concat "," k +:+ "}".

End types.

(** [test-vectors/schema]: the vector format. *)
Module schema.

Record Block := {
  MinerAddr : string;
  WinCount : Z;
  Messages : list bytes
}.

Record Tipset := { BaseFee : Z; Blocks : list Block }.

Record Variant := { ID : string; Epoch : Z; NetworkVersion : Z }.

Record GenerationData := { Source : string; Version : string }.

Record Metadata := { MetaID : string; Gen : list GenerationData }.

Record StateTree := { RootCID : Cid }.

Record Preconditions := {
  Variants : list Variant;
  PreBaseFee : Z;
  PreStateTree : option StateTree
}.

Record Receipt := { ExitCode : Z; ReturnValue : bytes; GasUsed : Z }.

Record Postconditions := {
  PostStateTree : option StateTree;
  ReceiptsRoots : list Cid;
  Receipts : list Receipt
}.

(** One recorded randomness draw: the request (kind, domain-separation
    tag, epoch, entropy) and the value that was returned. *)
Record RandomnessMatch := {
  On : Z * Z * Z * bytes;
  Ret : bytes
}.

Definition ClassMessage : string := "message".
Definition ClassTipset : string := "tipset".
Definition SelectorMinProtocolVersion : string := "min_protocol_version".

Record TestVector := {
  Class : string;
  Meta : option Metadata;
  Selector : gmap string string;
  Randomness : list RandomnessMatch;
  CAR : bytes;
  Pre : option Preconditions;
  ApplyTipsets : list Tipset;
  Post : option Postconditions
}.

End schema.

(** [conformance]: the execution driver and its reporter. *)
Module conformance.

Record ExecuteTipsetParams := {
  Preroot : Cid;
  ParentEpoch : Z;
  Tipset : schema.Tipset;
  ExecEpoch : Z
}.

(** [vm.ApplyRet], of which the receipt fields are read. *)
Record ApplyRet := { ExitCode : Z; Return : bytes; GasUsed : Z }.

Record ExecuteTipsetResult := {
  ReceiptsRoot : Cid;
  PostStateRoot : Cid;
  AppliedResults : list ApplyRet
}.

(** What one call of [Driver.ExecuteTipset] does: the objects it fetches
    from the blockstore, the randomness it draws through the recording
    source, and the pair it returns. *)
Record Execution := {
  fetched : list Cid;
  drawn : list schema.RandomnessMatch;
  result : option ExecuteTipsetResult;
  err : option error
}.

(** [LogReporter]: [Failed()] reads the flag. *)
Record LogReporter := { failed : bool }.
Definition Failed (r : LogReporter) : bool := failed r.
Definition newLogReporter : LogReporter := {| failed := false |}.

(** What one call of [ExecuteMessageVector] or [ExecuteTipsetVector]
    does: it updates the reporter, logs lines, and returns an error and a
    list of diffs. *)
Record Replay := {
  reporter : LogReporter;
  output : list string;
  rerr : option error;
  diffs : list string
}.

End conformance.

(** ** cmd/tvx *)

Module tvx.

(** *** Collaborators *)

(** The full-node API ([FullAPI]) and [lcli.ParseTipSetRef] over it.  The
    chain is fixed while the tool runs: a query is a function of its
    arguments.  A call returns a pointer and an error, as in Go. *)
Record FullNode := {
  ParseTipSetRef : string → option types.TipSet * option error;
  ChainGetTipSet : TipSetKey → option types.TipSet * option error;
  ChainGetBlockMessages : Cid → option types.BlockMessages * option error;
  StateNetworkVersion : TipSetKey → Z * option error;
  Version : string * option error;
  StateNetworkName : string * option error
}.

(** The execution side: message serialization, the codename table, the
    driver, and whether the blockstore of [NewProxyingStores] is a
    [TracingBlockstore]. *)
Record Engine := {
  Serialize : types.Message → bytes * option error;
  GetProtocolCodename : Z → string;
  ExecuteTipset : conformance.ExecuteTipsetParams → conformance.Execution;
  blockstoreTraces : bool;
  ExecuteMessageVector :
    conformance.LogReporter → schema.TestVector → schema.Variant → conformance.Replay;
  ExecuteTipsetVector :
    conformance.LogReporter → schema.TestVector → schema.Variant → conformance.Replay
}.

(** [compress/gzip] over a [bytes.Buffer], and the surgeon that streams an
    archive into it.  A [Writer] is the state of the pair: [Bytes] reads
    the buffer under the writer. *)
Record Archive := {
  Writer : Type;
  NewWriter : Writer;
  WriteCARIncluding : Writer → gset Cid → list Cid → Writer * option error;
  Flush : Writer → Writer * option error;
  Close : Writer → Writer * option error;
  Bytes : Writer → bytes
}.

Inductive StatResult :=
| StatOK (isDir : bool)
| StatNotExist
| StatError (e : error).

(** Packages [os], [path/filepath], [encoding/json], and [writeVector] of
    this command, which encodes a vector into a file. *)
Record OS := {
  FS : Type;
  Join : string → string → string;
  Stat : FS → string → StatResult;
  MkdirAll : FS → string → FS * option error;
  Create : FS → string → FS * option error;
  Open : FS → string → bytes * option error;
  Glob : FS → string → list string * option error;
  Decode : bytes → schema.TestVector * option error;
  writeVector : FS → schema.TestVector → string → FS * option error
}.

(** *** State *)

(** Calls worth observing, in the order they are made. *)
Inductive Event :=
| EvExtractTipset (ts : types.TipSet) (path : string)
| EvWriteVector (v : schema.TestVector) (path : string)
| EvMkdirAll (path : string)
| EvCreate (path : string)
| EvOpen (path : string)
| EvExecuteMessageVector (tv : schema.TestVector) (v : schema.Variant)
| EvExecuteTipsetVector (tv : schema.TestVector) (v : schema.Variant).

(** The file system, the writers the process-wide logger currently tees
    to, every line logged with the writer it went to, and the trace. *)
Record State (F : Type) := {
  fs : F;
  logOutput : list string;
  logged : list (string * string);
  trace : list Event
}.
Arguments fs {F} _.
Arguments logOutput {F} _.
Arguments logged {F} _.
Arguments trace {F} _.

Definition set_fs {F} (f : F) (s : State F) : State F :=
  {| fs := f; logOutput := logOutput s; logged := logged s; trace := trace s |}.
Definition SetOutput {F} (ws : list string) : M (State F) unit :=
  modify (λ s, {| fs := fs s; logOutput := ws; logged := logged s; trace := trace s |}).
Definition Println {F} (line : string) : M (State F) unit :=
  modify (λ s, {| fs := fs s; logOutput := logOutput s;
                  logged := logged s ++ ((λ w, (w, line)) <$> logOutput s);
                  trace := trace s |}).
Definition emit {F} (e : Event) : M (State F) unit :=
  modify (λ s, {| fs := fs s; logOutput := logOutput s; logged := logged s;
                  trace := trace s ++ [e] |}).

(** Run an operation of the file system that returns an error. *)
Definition sys {F} (op : F → F * option error) : M (State F) (option error) :=
  λ s, let '(f, e) := op (fs s) in (Val e, set_fs f s).

(** [err := f(...)]: the error a called function returns becomes a value
    of the caller. *)
Definition call {S} (m : M S unit) : M S (option error) :=
  λ s, match m s with
       | (Val _, s') => (Val None, s')
       | (Return e, s') => (Val (Some e), s')
       | (Panic w, s') => (Panic w, s')
       | (Unfinished, s') => (Unfinished, s')
       end.

(** [int64] subtraction wraps. *)
Definition wrap64 (z : Z) : Z := (z + 2 ^ 63) `mod` 2 ^ 64 - 2 ^ 63.

(** Modelled from the spec: the tracing blockstore (its file is not among
    the sources).  [StartTracing] resets the recorded set and begins
    interception; [FinishTracing] stops interception and returns the
    accumulated set; gets pass through and are recorded once each while
    tracing is active. *)
Record TracingBlockstore := { tracing : bool; traced : gset Cid }.
Definition StartTracing (_ : TracingBlockstore) : TracingBlockstore :=
  {| tracing := true; traced := ∅ |}.
Definition Get (c : Cid) (tbs : TracingBlockstore) : TracingBlockstore :=
  if tracing tbs then {| tracing := true; traced := traced tbs ∪ {[c]} |} else tbs.
Definition FinishTracing (tbs : TracingBlockstore) : TracingBlockstore * gset Cid :=
  ({| tracing := false; traced := traced tbs |}, traced tbs).
Definition newTracingBlockstore : TracingBlockstore :=
  {| tracing := false; traced := ∅ |}.

Record extractOpts := { retain : string; tsk : string; file : string }.

(** *** Extraction of tipset vectors *)

Section Extract.
Variable api : FullNode.
Variable eng : Engine.
Variable ar : Archive.
Variable os : OS.
(** The process-wide flag [extractFlags.retain], which [extractTipset] logs. *)
Variable extractFlags_retain : string.

Abbreviation St := (State (FS os)).

(** [for _, m := range ms { b, err := m.Serialize(); ...; packed = append(packed, b) }] *)
Fixpoint pack (ms : list types.Message) (packed : list bytes) : M St (list bytes) :=
  match ms with
  | [] => ret packed
  | m :: ms' =>
      let '(b, err) := Serialize eng m in
      check err (Wrap "failed to serialize message") ;;;
      pack ms' (packed ++ [b])
  end.

(** The loop over [ts.Blocks()] that fills [blocks]. *)
Fixpoint packBlocks (bs : list types.BlockHeader) (blocks : list schema.Block)
  : M St (list schema.Block) :=
  match bs with
  | [] => ret blocks
  | b :: bs' =>
      let '(msgs, err) := ChainGetBlockMessages api (types.BlockCid b) in
      check err (Wrap "failed to get block messages") ;;;
      msgs <- deref msgs ;;
      Println ("block " +:+ types.BlockCid b +:+ " has "
               +:+ pretty (length (types.Cids msgs)) +:+ " messages") ;;;
      packed <- pack (types.BlsMessages msgs) [] ;;
      packed <- pack (types.Msg <$> types.SecpkMessages msgs) packed ;;
      packBlocks bs' (blocks ++ [ {| schema.MinerAddr := types.Miner b;
                                     schema.WinCount := types.WinCount b;
                                     schema.Messages := packed |} ])
  end.

(** [ts.Blocks()[0]] *)
Definition firstBlock (bs : list types.BlockHeader) : M St types.BlockHeader :=
  match bs with
  | b :: _ => ret b
  | [] => panic "index out of range [0] with length 0"
  end.

Definition toReceipt (res : conformance.ApplyRet) : schema.Receipt :=
  {| schema.ExitCode := conformance.ExitCode res;
     schema.ReturnValue := conformance.Return res;
     schema.GasUsed := conformance.GasUsed res |}.

(** [for _, res := range result.AppliedResults { vector.Post.Receipts = append(...) }] *)
Fixpoint appendReceipts (rs : list conformance.ApplyRet) (receipts : list schema.Receipt)
  : list schema.Receipt :=
  match rs with
  | [] => receipts
  | res :: rs' => appendReceipts rs' (receipts ++ [toReceipt res])
  end.

Definition extractTipset (tsp : option types.TipSet) (path : string) : M St unit :=
  ts <- deref tsp ;;
  emit (EvExtractTipset ts path) ;;;
  Println ("tipset block count: " +:+ pretty (length (types.Blocks ts))) ;;;
  blocks <- packBlocks (types.Blocks ts) [] ;;
  let pst := newTracingBlockstore in
  let root := types.ParentState ts in
  Println ("base state tree root CID: " +:+ root) ;;;
  b0 <- firstBlock (types.Blocks ts) ;;
  let basefee := types.ParentBaseFee b0 in
  Println ("basefee: " +:+ pretty basefee) ;;;
  let tipset := {| schema.BaseFee := basefee; schema.Blocks := blocks |} in
  Println ("using state retention strategy: " +:+ extractFlags_retain) ;;;
  if negb (blockstoreTraces eng)
  then return_err (Error
    "requested 'accessed-cids' state retention, but no tracing blockstore was present")
  else
  let tbs := StartTracing pst in
  let params := {| conformance.Preroot := types.ParentState ts;
                   conformance.ParentEpoch := wrap64 (types.Height ts - 1);
                   conformance.Tipset := tipset;
                   conformance.ExecEpoch := types.Height ts |} in
  let run := ExecuteTipset eng params in
  let tbs := foldl (λ t c, Get c t) tbs (conformance.fetched run) in
  check (conformance.err run) (Wrap "failed to execute tipset") ;;;
  let '(tbs, accessed) := FinishTracing tbs in
  let gw := NewWriter ar in
  result <- deref (conformance.result run) ;;
  let '(gw, err) := WriteCARIncluding ar gw accessed
                      [types.ParentState ts; conformance.PostStateRoot result] in
  check err id ;;;
  let '(gw, err) := Flush ar gw in
  check err id ;;;
  let '(gw, err) := Close ar gw in
  check err id ;;;
  let codename := GetProtocolCodename eng (types.Height ts) in
  let '(nv, err) := StateNetworkVersion api (types.Key ts) in
  check err id ;;;
  let '(version, err) := Version api in
  check err id ;;;
  let '(ntwkName, err) := StateNetworkName api in
  check err id ;;;
  let vector :=
    {| schema.Class := schema.ClassTipset;
       schema.Meta := Some
         {| schema.MetaID := "@" +:+ FormatInt (types.Height ts);
            schema.Gen :=
              [ {| schema.Source := "network:" +:+ ntwkName; schema.Version := "" |};
                {| schema.Source := "tipset:" +:+ types.KeyString (types.Key ts);
                   schema.Version := "" |};
                {| schema.Source := "github.com/filecoin-project/lotus";
                   schema.Version := version |} ] |};
       schema.Selector := {[ schema.SelectorMinProtocolVersion := codename ]};
       schema.Randomness := conformance.drawn run;
       schema.CAR := Bytes ar gw;
       schema.Pre := Some
         {| schema.Variants :=
              [ {| schema.ID := codename;
                   schema.Epoch := types.Height ts;
                   schema.NetworkVersion := nv |} ];
            schema.PreBaseFee := basefee;
            schema.PreStateTree := Some {| schema.RootCID := types.ParentState ts |} |};
       schema.ApplyTipsets := [tipset];
       schema.Post := Some
         {| schema.PostStateTree :=
              Some {| schema.RootCID := conformance.PostStateRoot result |};
            schema.ReceiptsRoots := [conformance.ReceiptsRoot result];
            schema.Receipts := appendReceipts (conformance.AppliedResults result) [] |} |} in
  emit (EvWriteVector vector path) ;;;
  err <- sys (λ f, writeVector os f vector path) ;;
  check err id.

(** The loop of [extractTipsetRange]; it ends with the cursor on the
    tipset whose key is [left]'s.  [n] bounds the number of condition
    evaluations. *)
Fixpoint walkBack (n : nat) (left curr : option types.TipSet) (dir : string)
  : M St (option types.TipSet) :=
  match n with
  | O => unfinished
  | S n' =>
      c <- deref curr ;;
      l <- deref left ;;
      if bool_decide (types.Key c ≠ types.Key l) then
        Println ("extracting tipset " +:+ types.KeyString (types.Key c)
                 +:+ " (height: " +:+ pretty (types.Height c) +:+ ")") ;;;
        err <- call (extractTipset curr
                       (Join os dir ("epoch-" +:+ FormatInt (types.Height c)))) ;;
        (* the format has one verb more than operands: the cause is not wrapped *)
        check err (λ _, Error "failed to extract tipset") ;;;
        let '(curr, err) := ChainGetTipSet api (types.Parents c) in
        match err with
        | Some e =>
            (* the message is built from the cursor just assigned *)
            c <- deref curr ;;
            return_err (Wrap "failed to get tipset" e)
        | None => walkBack n' left curr dir
        end
      else ret curr
  end.

Definition extractTipsetRange (n : nat) (left right : option types.TipSet) (dir : string)
  : M St unit :=
  curr <- walkBack n left right dir ;;
  c <- deref curr ;;
  Println ("extracting tipset " +:+ types.KeyString (types.Key c)
           +:+ " (height: " +:+ pretty (types.Height c) +:+ ")") ;;;
  extractTipset curr (Join os dir ("epoch-" +:+ FormatInt (types.Height c) +:+ ".json")).

Definition doExtractTipset (n : nat) (opts : extractOpts) : M St unit :=
  if bool_decide (retain opts ≠ "accessed-cids")
  then return_err (Error "tipset extraction only supports 'accessed-cids' state retention")
  else if bool_decide (tsk opts = "")
  then return_err (Error "tipset key cannot be empty")
  else
  match Split (tsk opts) ".." with
  | [_] =>
      let '(ts, err) := ParseTipSetRef api (tsk opts) in
      check err (Wrap "failed to fetch tipset") ;;;
      extractTipset ts (file opts)
  | [ss0; ss1] =>
      let left := (ParseTipSetRef api ss0).1 in
      check (ParseTipSetRef api ss0).2 (Wrap "failed to fetch tipset") ;;;
      let right := (ParseTipSetRef api ss1).1 in
      check (ParseTipSetRef api ss1).2 (Wrap "failed to fetch tipset") ;;;
      st <- gets (λ s, Stat os (fs s) (file opts)) ;;
      match st with
      | StatNotExist =>
          emit (EvMkdirAll (file opts)) ;;;
          err <- sys (λ f, MkdirAll os f (file opts)) ;;
          check err (Wrap "failed to create directory")
      | StatOK isDir =>
          if negb isDir then return_err (Error "path is not a directory") else ret tt
      | StatError e => return_err (Wrap "failed to stat directory" e)
      end ;;;
      extractTipsetRange n left right (file opts)
  | _ => return_err (Error "unrecognized tipset format")
  end.

End Extract.

(** *** The vector of a tipset, as a function

    [extractTipset] reads the chain and runs the driver, and touches the
    state only to log, to record the trace and to write the file: what it
    assembles is a function of the tipset.  [assemble] is that function,
    the same steps without the log; [extractTipset_assemble] below relates
    the two. *)

Section Assemble.
Variable api : FullNode.
Variable eng : Engine.
Variable ar : Archive.

Definition rbind {A B} (r : result A) (k : A → result B) : result B :=
  match r with
  | Val a => k a
  | Return e => Return e
  | Panic w => Panic w
  | Unfinished => Unfinished
  end.

Definition rcheck (err : option error) (wrap : error → error) : result unit :=
  match err with
  | Some e => Return (wrap e)
  | None => Val tt
  end.

Definition rderef {A} (p : option A) : result A :=
  match p with
  | Some a => Val a
  | None => Panic "invalid memory address or nil pointer dereference"
  end.

Fixpoint packed_of (ms : list types.Message) (packed : list bytes) : result (list bytes) :=
  match ms with
  | [] => Val packed
  | m :: ms' =>
      rbind (rcheck (Serialize eng m).2 (Wrap "failed to serialize message"))
        (λ _, packed_of ms' (packed ++ [(Serialize eng m).1]))
  end.

Fixpoint blocks_of (bs : list types.BlockHeader) (blocks : list schema.Block)
  : result (list schema.Block) :=
  match bs with
  | [] => Val blocks
  | b :: bs' =>
      let got := ChainGetBlockMessages api (types.BlockCid b) in
      rbind (rcheck got.2 (Wrap "failed to get block messages")) (λ _,
      rbind (rderef got.1) (λ msgs,
      rbind (packed_of (types.BlsMessages msgs) []) (λ packed,
      rbind (packed_of (types.Msg <$> types.SecpkMessages msgs) packed) (λ packed,
      blocks_of bs' (blocks ++ [ {| schema.MinerAddr := types.Miner b;
                                    schema.WinCount := types.WinCount b;
                                    schema.Messages := packed |} ])))))
  end.

(** The arguments [extractTipset] gives the driver. *)
Definition paramsOf (ts : types.TipSet) (blocks : list schema.Block) (basefee : Z)
  : conformance.ExecuteTipsetParams :=
  {| conformance.Preroot := types.ParentState ts;
     conformance.ParentEpoch := wrap64 (types.Height ts - 1);
     conformance.Tipset := {| schema.BaseFee := basefee; schema.Blocks := blocks |};
     conformance.ExecEpoch := types.Height ts |}.

(** The set [FinishTracing] returns after the driver fetched [cs] from a
    blockstore on which [StartTracing] was called. *)
Definition accessedBy (cs : list Cid) : gset Cid :=
  (FinishTracing (foldl (λ t c, Get c t) (StartTracing newTracingBlockstore) cs)).2.

(** The archive step: stream, flush, close, and only then read the buffer. *)
Definition archive (accessed : gset Cid) (roots : list Cid) : result bytes :=
  let written := WriteCARIncluding ar (NewWriter ar) accessed roots in
  rbind (rcheck written.2 id) (λ _,
  let flushed := Flush ar written.1 in
  rbind (rcheck flushed.2 id) (λ _,
  let closed := Close ar flushed.1 in
  rbind (rcheck closed.2 id) (λ _,
  Val (Bytes ar closed.1)))).

Definition vectorOf (ts : types.TipSet) (blocks : list schema.Block) (basefee : Z)
    (run : conformance.Execution) (res : conformance.ExecuteTipsetResult)
    (car : bytes) (nv : Z) (version ntwkName : string) : schema.TestVector :=
  let codename := GetProtocolCodename eng (types.Height ts) in
  {| schema.Class := schema.ClassTipset;
     schema.Meta := Some
       {| schema.MetaID := "@" +:+ FormatInt (types.Height ts);
          schema.Gen :=
            [ {| schema.Source := "network:" +:+ ntwkName; schema.Version := "" |};
              {| schema.Source := "tipset:" +:+ types.KeyString (types.Key ts);
                 schema.Version := "" |};
              {| schema.Source := "github.com/filecoin-project/lotus";
                 schema.Version := version |} ] |};
     schema.Selector := {[ schema.SelectorMinProtocolVersion := codename ]};
     schema.Randomness := conformance.drawn run;
     schema.CAR := car;
     schema.Pre := Some
       {| schema.Variants :=
            [ {| schema.ID := codename;
                 schema.Epoch := types.Height ts;
                 schema.NetworkVersion := nv |} ];
          schema.PreBaseFee := basefee;
          schema.PreStateTree := Some {| schema.RootCID := types.ParentState ts |} |};
     schema.ApplyTipsets := [ {| schema.BaseFee := basefee; schema.Blocks := blocks |} ];
     schema.Post := Some
       {| schema.PostStateTree :=
            Some {| schema.RootCID := conformance.PostStateRoot res |};
          schema.ReceiptsRoots := [conformance.ReceiptsRoot res];
          schema.Receipts := toReceipt <$> conformance.AppliedResults res |} |}.

Definition assemble (ts : types.TipSet) : result schema.TestVector :=
  rbind (blocks_of (types.Blocks ts) []) (λ blocks,
  rbind (match types.Blocks ts with
         | b :: _ => Val b
         | [] => Panic "index out of range [0] with length 0"
         end) (λ b0,
  let basefee := types.ParentBaseFee b0 in
  if negb (blockstoreTraces eng)
  then Return (Error
    "requested 'accessed-cids' state retention, but no tracing blockstore was present")
  else
  let run := ExecuteTipset eng (paramsOf ts blocks basefee) in
  rbind (rcheck (conformance.err run) (Wrap "failed to execute tipset")) (λ _,
  rbind (rderef (conformance.result run)) (λ res,
  rbind (archive (accessedBy (conformance.fetched run))
           [types.ParentState ts; conformance.PostStateRoot res]) (λ car,
  rbind (rcheck (StateNetworkVersion api (types.Key ts)).2 id) (λ _,
  rbind (rcheck (Version api).2 id) (λ _,
  rbind (rcheck (StateNetworkName api).2 id) (λ _,
  Val (vectorOf ts blocks basefee run res car
         (StateNetworkVersion api (types.Key ts)).1
         (Version api).1 (StateNetworkName api).1))))))))).

End Assemble.

(** *** Replay of vectors (exec.go) *)

Section Exec.
Variable eng : Engine.
Variable os : OS.

Abbreviation St := (State (FS os)).

(** What [executeTestVector] and [execVectorFile] hand back: the reporter
    as the call left it, and the pair [(err, diffs)]. *)
Definition Outcome : Type := conformance.LogReporter * (option error * list string).

(** After a variant was executed: the lines the execution logged, the
    verdict read from the reporter, and the rest of the loop. *)
Definition reportVariant (run : conformance.Replay) (v : schema.Variant)
    (rest : conformance.LogReporter → option error → list string → M St Outcome)
  : M St Outcome :=
  for_range (conformance.output run) Println ;;;
  (if conformance.Failed (conformance.reporter run)
   then Println ("test vector failed for variant " +:+ schema.ID v)
   else Println ("test vector succeeded for variant " +:+ schema.ID v)) ;;;
  rest (conformance.reporter run) (conformance.rerr run) (conformance.diffs run).

(** The loop over [tv.Pre.Variants]; [err] and [diffs] are the named
    results of the function, assigned by every iteration. *)
Fixpoint runVariants (r : conformance.LogReporter) (tv : schema.TestVector)
    (vs : list schema.Variant) (err : option error) (diffs : list string)
  : M St Outcome :=
  match vs with
  | [] => ret (r, (err, diffs))
  | v :: vs' =>
      let class := schema.Class tv in
      if bool_decide (class = "message") then
        emit (EvExecuteMessageVector tv v) ;;;
        reportVariant (ExecuteMessageVector eng r tv v) v
          (λ r' err' diffs', runVariants r' tv vs' err' diffs')
      else if bool_decide (class = "tipset") then
        emit (EvExecuteTipsetVector tv v) ;;;
        reportVariant (ExecuteTipsetVector eng r tv v) v
          (λ r' err' diffs', runVariants r' tv vs' err' diffs')
      else
        ret (r, (Some (Error ("test vector class " +:+ class +:+ " not supported")), []))
  end.

Definition executeTestVector (r : conformance.LogReporter) (tv : schema.TestVector)
  : M St Outcome :=
  meta <- deref (schema.Meta tv) ;;
  Println ("executing test vector: " +:+ schema.MetaID meta) ;;;
  pre <- deref (schema.Pre tv) ;;
  runVariants r tv (schema.Variants pre) None [].

Definition execVectorFile (r : conformance.LogReporter) (path : string) : M St Outcome :=
  emit (EvOpen path) ;;;
  opened <- gets (λ s, Open os (fs s) path) ;;
  match opened.2 with
  | Some e => ret (r, (Some (Wrap "failed to open test vector" e), []))
  | None =>
      let '(tv, err) := Decode os opened.1 in
      match err with
      | Some e => ret (r, (Some (Wrap "failed to decode test vector" e), []))
      | None => executeTestVector r tv
      end
  end.

(** The report a vector file gets in the output directory. *)
Definition outfile (f : string) : string := TrimSuffix (Base f) (Ext f) +:+ ".out".

(** The body of the loop of [execVectorDir]. *)
Definition execVectorInto (outdir : string) (f : string) : M St unit :=
  let outpath := Join os outdir (outfile f) in
  emit (EvCreate outpath) ;;;
  err <- sys (λ d, Create os d outpath) ;;
  check err (Wrap "failed to create file") ;;;
  Println ("processing vector " +:+ f +:+ "; sending output to " +:+ outpath) ;;;
  SetOutput ["stderr"; outpath] ;;;
  _ <- execVectorFile conformance.newLogReporter f ;;
  SetOutput ["stderr"].

Definition execVectorDir (path : string) (outdir : string) : M St unit :=
  globbed <- gets (λ s, Glob os (fs s) (Join os path "*")) ;;
  check globbed.2 (Wrap "failed to glob input directory") ;;;
  for_range globbed.1 (execVectorInto outdir).

(** [execVectorsStdin] over the values the decoder yields before the end
    of the stream: a vector, or a decoding error. *)
Fixpoint execVectors (r : conformance.LogReporter)
    (stdin : list (schema.TestVector * option error)) : M St unit :=
  match stdin with
  | [] => ret tt
  | (tv, None) :: rest =>
      out <- executeTestVector r tv ;;
      check out.2.1 id ;;;
      execVectors out.1 rest
  | (_, Some e) :: _ => return_err e
  end.

End Exec.

End tvx.

(** ** A small world to run the code in

    A chain of three tipsets of one block each (heights 10, 11, 12; the
    parent of height 10 is unknown to the node), a driver that applies
    every message with exit code 0, a writer that keeps what it was given
    pending until it is flushed, and a file system as an association
    list. *)

Module demo.

Definition header (c : Cid) : types.BlockHeader :=
  {| types.BlockCid := c; types.Miner := "f01000"; types.WinCount := 1;
     types.ParentBaseFee := 100 |}.

Definition t10 : types.TipSet :=
  {| types.Key := ["b10"]; types.Height := 10; types.Parents := ["b9"];
     types.ParentState := "s9"; types.Blocks := [header "b10"] |}.
Definition t11 : types.TipSet :=
  {| types.Key := ["b11"]; types.Height := 11; types.Parents := ["b10"];
     types.ParentState := "s10"; types.Blocks := [header "b11"] |}.
Definition t12 : types.TipSet :=
  {| types.Key := ["b12"]; types.Height := 12; types.Parents := ["b11"];
     types.ParentState := "s11"; types.Blocks := [header "b12"] |}.

(** A tipset that is not an ancestor of the others. *)
Definition t7 : types.TipSet :=
  {| types.Key := ["b7"]; types.Height := 7; types.Parents := ["b6"];
     types.ParentState := "s6"; types.Blocks := [header "b7"] |}.

Definition tipsets : list types.TipSet := [t10; t11; t12].

Definition lookup (k : TipSetKey) : option types.TipSet * option error :=
  match find (λ t, bool_decide (types.Key t = k)) tipsets with
  | Some t => (Some t, None)
  | None => (None, Some (Error "tipset not found"))
  end.

Definition m1 : types.Message :=
  {| types.To := "f0100"; types.From := "f0101"; types.Nonce := 1;
     types.Params := [Byte.x01] |}.
Definition m2 : types.Message :=
  {| types.To := "f0100"; types.From := "f0102"; types.Nonce := 5;
     types.Params := [Byte.x02; Byte.x03] |}.

Definition api : tvx.FullNode :=
  {| tvx.ParseTipSetRef := λ ref, lookup [ref];
     tvx.ChainGetTipSet := lookup;
     tvx.ChainGetBlockMessages := λ c,
       (Some {| types.BlsMessages := [m1];
                types.SecpkMessages := [ {| types.Msg := m2; types.Signature := [] |} ];
                types.Cids := ["m1"; "m2"] |}, None);
     tvx.StateNetworkVersion := λ _, (7, None);
     tvx.Version := ("1.2.0", None);
     tvx.StateNetworkName := ("testnet", None) |}.

Definition applied (t : schema.Tipset) : list conformance.ApplyRet :=
  b ← schema.Blocks t;
  (λ m, {| conformance.ExitCode := 0; conformance.Return := m;
           conformance.GasUsed := Z.of_nat (length m) |}) <$> schema.Messages b.

Definition eng : tvx.Engine :=
  {| tvx.Serialize := λ m, (types.Params m, None);
     tvx.GetProtocolCodename := λ _, "genesis";
     tvx.ExecuteTipset := λ p,
       {| conformance.fetched :=
            [conformance.Preroot p; "actors"; conformance.Preroot p];
          conformance.drawn := [];
          conformance.result := Some
            {| conformance.ReceiptsRoot := "receipts";
               conformance.PostStateRoot := "s" +:+ FormatInt (conformance.ExecEpoch p);
               conformance.AppliedResults := applied (conformance.Tipset p) |};
          conformance.err := None |};
     tvx.blockstoreTraces := true;
     tvx.ExecuteMessageVector := λ r _ v,
       {| conformance.reporter := r;
          conformance.output := ["applied message"];
          conformance.rerr := None;
          conformance.diffs := [] |};
     tvx.ExecuteTipsetVector := λ r _ v,
       if bool_decide (schema.Epoch v < 0)
       then {| conformance.reporter := {| conformance.failed := true |};
               conformance.output := ["state root mismatch"];
               conformance.rerr := Some (Error "tipset replay failed");
               conformance.diffs := ["root: expected " +:+ schema.ID v] |}
       else {| conformance.reporter := r;
               conformance.output := ["applied tipset"];
               conformance.rerr := None;
               conformance.diffs := [] |} |}.

Record writer := { buffer : bytes; pending : bytes; closed : bool }.

Definition encode (accessed : gset Cid) (roots : list Cid) : bytes :=
  c ← roots ++ elements accessed; String.list_byte_of_string c.

Definition ar : tvx.Archive :=
  {| tvx.Writer := writer;
     tvx.NewWriter := {| buffer := []; pending := []; closed := false |};
     tvx.WriteCARIncluding := λ w accessed roots,
       ({| buffer := buffer w; pending := pending w ++ encode accessed roots;
           closed := closed w |}, None);
     tvx.Flush := λ w,
       ({| buffer := buffer w ++ pending w; pending := []; closed := closed w |}, None);
     tvx.Close := λ w,
       ({| buffer := buffer w ++ pending w ++ [Byte.x00]; pending := [];
           closed := true |}, None);
     tvx.Bytes := buffer |}.

(** A writer whose [Close] fails. *)
Definition ar_unclosed : tvx.Archive :=
  {| tvx.Writer := writer;
     tvx.NewWriter := tvx.NewWriter ar;
     tvx.WriteCARIncluding := tvx.WriteCARIncluding ar;
     tvx.Flush := tvx.Flush ar;
     tvx.Close := λ w, (w, Some (Error "short write"));
     tvx.Bytes := buffer |}.

Inductive node :=
| Dir
| Data (content : bytes)
| Vector (v : schema.TestVector).

Definition files := list (string * node).

Definition at_path (d : files) (p : string) : option node :=
  snd <$> find (λ e, bool_decide (e.1 = p)) d.

Definition messageVector (class : string) (vs : list schema.Variant) : schema.TestVector :=
  {| schema.Class := class;
     schema.Meta := Some {| schema.MetaID := "v1"; schema.Gen := [] |};
     schema.Selector := ∅;
     schema.Randomness := [];
     schema.CAR := [];
     schema.Pre := Some {| schema.Variants := vs; schema.PreBaseFee := 100;
                           schema.PreStateTree := None |};
     schema.ApplyTipsets := [];
     schema.Post := None |}.

Definition variant (id : string) (epoch : Z) : schema.Variant :=
  {| schema.ID := id; schema.Epoch := epoch; schema.NetworkVersion := 7 |}.

Definition os : tvx.OS :=
  {| tvx.FS := files;
     tvx.Join := λ d e, d +:+ "/" +:+ e;
     tvx.Stat := λ d p,
       match at_path d p with
       | Some Dir => tvx.StatOK true
       | Some _ => tvx.StatOK false
       | None => tvx.StatNotExist
       end;
     tvx.MkdirAll := λ d p, ((p, Dir) :: d, None);
     tvx.Create := λ d p, ((p, Data []) :: d, None);
     tvx.Open := λ d p,
       match at_path d p with
       | Some (Data b) => (b, None)
       | _ => ([], Some (Error "no such file"))
       end;
     tvx.Glob := λ d pat,
       if bool_decide (pat = "in/*")
       then (["in/a.json"; "in/b.json"; "in/c.json"], None)
       else ([], None);
     tvx.Decode := λ b,
       if bool_decide (b = [Byte.x01])
       then (messageVector "message" [variant "genesis" 1], None)
       else if bool_decide (b = [Byte.x02])
       then (messageVector "tipset" [variant "genesis" 2], None)
       else (messageVector "" [], Some (Error "invalid character"));
     tvx.writeVector := λ d v p, ((p, Vector v) :: d, None) |}.

Definition disk : files :=
  [ ("in", Dir);
    ("in/a.json", Data [Byte.x01]);
    ("in/b.json", Data [Byte.x7b]);
    ("in/c.json", Data [Byte.x02]);
    ("vectors", Dir) ].

Definition start : tvx.State (tvx.FS os) :=
  {| tvx.fs := disk; tvx.logOutput := ["stderr"]; tvx.logged := []; tvx.trace := [] |}.

(** Extraction of the tipset at height 12, and the vector it assembles. *)
Definition extract12 : result unit * tvx.State (tvx.FS os) :=
  tvx.extractTipset api eng ar os "accessed-cids" (Some t12) "vectors/t12.json" start.
Definition extract12_unclosed : result unit * tvx.State (tvx.FS os) :=
  tvx.extractTipset api eng ar_unclosed os "accessed-cids" (Some t12)
    "vectors/t12.json" start.
Definition vector12 : schema.TestVector :=
  match tvx.assemble api eng ar t12 with
  | Val v => v
  | _ => messageVector "" []
  end.

(** A range over the whole chain, a range whose left end is not an
    ancestor of the right end, and the two ways of asking for the tipset
    at height 10 alone. *)
Definition range12 : result unit * tvx.State (tvx.FS os) :=
  tvx.extractTipsetRange api eng ar os "accessed-cids" 3 (Some t10) (Some t12)
    "vectors" start.
Definition range_lost : result unit * tvx.State (tvx.FS os) :=
  tvx.extractTipsetRange api eng ar os "accessed-cids" 2 (Some t7) (Some t11)
    "vectors" start.
Definition single10 : result unit * tvx.State (tvx.FS os) :=
  tvx.doExtractTipset api eng ar os "accessed-cids" 1
    {| tvx.retain := "accessed-cids"; tvx.tsk := "b10"; tvx.file := "out" |} start.
Definition range10 : result unit * tvx.State (tvx.FS os) :=
  tvx.doExtractTipset api eng ar os "accessed-cids" 2
    {| tvx.retain := "accessed-cids"; tvx.tsk := "b10..b10"; tvx.file := "out" |} start.

(** A tipset vector of two variants, the first of which fails, a vector
    of an unknown class without variants, and a replay of the directory
    [in], whose second file is not a vector. *)
Definition twoVariants : schema.TestVector :=
  messageVector "tipset" [variant "broken" (-1); variant "genesis" 2].
Definition replayTwo : result tvx.Outcome * tvx.State (tvx.FS os) :=
  tvx.executeTestVector eng os conformance.newLogReporter twoVariants start.
Definition replayUnknown : result tvx.Outcome * tvx.State (tvx.FS os) :=
  tvx.executeTestVector eng os conformance.newLogReporter (messageVector "block" []) start.
Definition replayDir : result unit * tvx.State (tvx.FS os) :=
  tvx.execVectorDir eng os "in" "out" start.

(** A seal-precommit response whose CommD is too short. *)
Definition shortCommD : sectorstorage.SealPreCommitResp :=
  {| sectorstorage.ErrCode := 0;
     sectorstorage.CallID := "call-1";
     sectorstorage.CommR := replicate 32 Byte.x01;
     sectorstorage.CommD := [Byte.x02; Byte.x02; Byte.x02] |}.

End demo.

(** ** Vocabulary of the statements *)

Module obs.
Import tvx.

(** The tipsets [extractTipset] was called on, with the path of each. *)
Definition visits (evs : list Event) : list (types.TipSet * string) :=
  omap (λ e, match e with EvExtractTipset ts p => Some (ts, p) | _ => None end) evs.

(** The vectors handed to [writeVector], with the path of each. *)
Definition writes (evs : list Event) : list (schema.TestVector * string) :=
  omap (λ e, match e with EvWriteVector v p => Some (v, p) | _ => None end) evs.

Definition opened (evs : list Event) : list string :=
  omap (λ e, match e with EvOpen p => Some p | _ => None end) evs.

(** The executions dispatched, as [(true, tv, v)] for the message path and
    [(false, tv, v)] for the tipset path. *)
Definition dispatched (evs : list Event)
  : list (bool * schema.TestVector * schema.Variant) :=
  omap (λ e, match e with
             | EvExecuteMessageVector tv v => Some (true, tv, v)
             | EvExecuteTipsetVector tv v => Some (false, tv, v)
             | _ => None
             end) evs.


(** The loop of [executeTestVector] for a class whose execution path is
    [execute], without the log: every variant is executed on the reporter
    the previous one left, and assigns the two results. *)
Fixpoint replayAll
    (execute : conformance.LogReporter → schema.TestVector → schema.Variant
               → conformance.Replay)
    (r : conformance.LogReporter) (tv : schema.TestVector)
    (vs : list schema.Variant) (err : option error) (diffs : list string)
  : conformance.LogReporter * (option error * list string) :=
  match vs with
  | [] => (r, (err, diffs))
  | v :: vs' =>
      let run := execute r tv v in
      replayAll execute (conformance.reporter run) tv vs'
        (conformance.rerr run) (conformance.diffs run)
  end.

(** The events recorded between two states. *)
Definition added {F} (s s' : State F) : list Event :=
  drop (length (trace s)) (trace s').

(** The state [s] after [lines] were logged, and after events were recorded. *)
Definition logging {F} (lines : list (string * string)) (s : State F) : State F :=
  {| fs := fs s; logOutput := logOutput s; logged := logged s ++ lines; trace := trace s |}.
Definition tracing_more {F} (evs : list Event) (s : State F) : State F :=
  {| fs := fs s; logOutput := logOutput s; logged := logged s; trace := trace s ++ evs |}.

(** The state [s] after lines were logged and events recorded. *)
Definition later {F} (lines : list (string * string)) (evs : list Event) (s : State F)
  : State F :=
  {| fs := fs s; logOutput := logOutput s; logged := logged s ++ lines;
     trace := trace s ++ evs |}.

(** A function call ended without completing normally. *)
Definition aborted {A} (r : result A) : Prop :=
  match r with
  | Return _ | Panic _ => True
  | Val _ | Unfinished => False
  end.

(** A reference without a dot: it holds no range separator. *)
Fixpoint nodots (s : string) : bool :=
  match s with
  | EmptyString => true
  | String c s' => negb (bool_decide (c = "."%char)) && nodots s'
  end.

Section Chain.
Variable api : FullNode.
Variable eng : Engine.
Variable ar : Archive.
Variable os : OS.

(** What [extractTipset] returns and the state it leaves, given the lines
    it logged. *)
Definition extracted (ts : types.TipSet) (path : string)
    (lines : list (string * string)) (s : State (FS os)) : result unit * State (FS os) :=
  match assemble api eng ar ts with
  | Val v =>
      let w := writeVector os (fs s) v path in
      (match w.2 with Some e => Return e | None => Val tt end,
       {| fs := w.1; logOutput := logOutput s; logged := logged s ++ lines;
          trace := trace s ++ [EvExtractTipset ts path; EvWriteVector v path] |})
  | Return e => (Return e, logging lines (tracing_more [EvExtractTipset ts path] s))
  | Panic w => (Panic w, logging lines (tracing_more [EvExtractTipset ts path] s))
  | Unfinished => (Unfinished, logging lines (tracing_more [EvExtractTipset ts path] s))
  end.

(** [chain k c l]: [l] is the parent chain from [c] back to the first
    tipset whose key is [k], both included; every parent lookup on the
    way succeeds, and a parent is lower than its child. *)
Inductive chain (k : TipSetKey) : types.TipSet → list types.TipSet → Prop :=
| chain_end c : types.Key c = k → chain k c [c]
| chain_step c p l :
    types.Key c ≠ k →
    ChainGetTipSet api (types.Parents c) = (Some p, None) →
    types.Height p < types.Height c →
    chain k p l →
    chain k c (c :: l).

(** [broken k c l p e]: from [c] the parent lookups succeed along [l],
    none of [l] has key [k], and the lookup of the parent of the last
    tipset of [l] returns the error [e], with the pointer [p]. *)
Inductive broken (k : TipSetKey) (p : option types.TipSet) (e : error)
  : types.TipSet → list types.TipSet → Prop :=
| broken_here c :
    types.Key c ≠ k →
    ChainGetTipSet api (types.Parents c) = (p, Some e) →
    broken k p e c [c]
| broken_later c q l :
    types.Key c ≠ k →
    ChainGetTipSet api (types.Parents c) = (Some q, None) →
    broken k p e q l →
    broken k p e c (c :: l).

(** The two path forms of [extractTipsetRange]. *)
Definition loopPath (dir : string) (c : types.TipSet) : string :=
  Join os dir ("epoch-" +:+ FormatInt (types.Height c)).
Definition leftPath (dir : string) (c : types.TipSet) : string :=
  Join os dir ("epoch-" +:+ FormatInt (types.Height c) +:+ ".json").


(** The calls of [extractTipset] a walk over [l] makes. *)
Fixpoint planned (dir : string) (l : list types.TipSet) : list (types.TipSet * string) :=
  match l with
  | [] => []
  | [c] => [(c, leftPath dir c)]
  | c :: l' => (c, loopPath dir c) :: planned dir l'
  end.

End Chain.

End obs.

(** ** extern/sector-storage/dispatch.go: the requests *)

Module dispatch.

(** [uint64] arithmetic wraps. *)
Definition u64 (z : Z) : Z := z `mod` 2 ^ 64.

(** [abi.PieceInfo] *)
Record abiPieceInfo := { Size : Z; PieceCID : Cid }.

Record PieceInfo := { NumBytes : Z; CommP : bytes }.

(** [generated.Fil32ByteArray]: [Inner] is a [[32]byte]. *)
Record Fil32ByteArray := { Inner : bytes }.

(** [generated.Fil32ByteArray{}] *)
Definition zero32 : Fil32ByteArray := {| Inner := replicate 32 Byte.x00 |}.

(** [copy(out.Inner[:], in)] into the zero array: as many bytes as fit. *)
Definition To32ByteArray (inp : bytes) : Fil32ByteArray :=
  {| Inner := take 32 inp ++ replicate (32 - length inp) Byte.x00 |}.

(** [storage.SectorRef], with the two fields of its [ID]. *)
Record SectorRef := { Miner : Z; Number : Z; RefProofType : Z }.

(** [storiface.CallID] *)
Record CallID := { Sector : Z * Z; ID : string }.

Module SealPreCommitParam.
Record t := {
  CallID : CallID;
  ProofType : Z;
  CachePath : string;
  SealedPath : string;
  UnsealedPath : string;
  SectorNumber : Z;
  ProverID : bytes;
  Ticket : bytes;
  Pieces : list PieceInfo;
  PiecesLen : Z
}.
End SealPreCommitParam.

Module SealCommitParam.
Record t := {
  CallID : CallID;
  ProofType : Z;
  CommD : bytes;
  CommR : bytes;
  CachePath : string;
  SealedPath : string;
  SectorNumber : Z;
  ProverID : bytes;
  Ticket : bytes;
  Seed : bytes;
  Pieces : list PieceInfo;
  PiecesLen : Z
}.
End SealCommitParam.

(** [SealPreCommitErrCode.Err] and [SealCommitErrCode.Err]: the call error
    as its code and message, [None] being [nil]. *)
Definition SealPreCommitFailed : Z := 1.
Definition SealCommitFailed : Z := 1.
Definition PreCommitErr (e : Z) : option (Z * string) :=
  if bool_decide (e = SealPreCommitFailed) then Some (e, "P12 Failed") else None.
Definition CommitErr (e : Z) : option (Z * string) :=
  if bool_decide (e = SealCommitFailed) then Some (e, "C2 Failed") else None.

(** What the file takes from other packages: the conversions of
    [commcid] from a CID back to a commitment, [PaddedPieceSize.Unpadded],
    [RegisteredSealProof.SectorSize], [address.NewIDAddress] followed by
    [Payload], and the proof-type constant of the generated bindings. *)
Record Deps := {
  CIDToPieceCommitmentV1 : Cid → bytes * option error;
  CIDToReplicaCommitmentV1 : Cid → bytes * option error;
  CIDToDataCommitmentV1 : Cid → bytes * option error;
  Unpadded : Z → Z;
  SectorSize : Z → Z * option error;
  NewIDAddress : Z → bytes * option error;
  FilRegisteredPoStProofStackedDrgWindow32GiBV1 : Z
}.

Section Requests.
Variable deps : Deps.

Definition to32ByteCommP (pieceCID : Cid) : Fil32ByteArray * option error :=
  let '(commP, err) := CIDToPieceCommitmentV1 deps pieceCID in
  match err with
  | Some e => (zero32, Some (Wrap "failed to transform sealed CID to CommP" e))
  | None => (To32ByteArray commP, None)
  end.

Definition to32ByteCommR (sealedCID : Cid) : Fil32ByteArray * option error :=
  let '(commD, err) := CIDToReplicaCommitmentV1 deps sealedCID in
  match err with
  | Some e => (zero32, Some (Wrap "failed to transform sealed CID to CommR" e))
  | None => (To32ByteArray commD, None)
  end.

Definition to32ByteCommD (unsealedCID : Cid) : Fil32ByteArray * option error :=
  let '(commD, err) := CIDToDataCommitmentV1 deps unsealedCID in
  match err with
  | Some e => (zero32, Some (Wrap "failed to transform sealed CID to CommD" e))
  | None => (To32ByteArray commD, None)
  end.

(** The loop of [ToFilPublicPieceInfos] from index [length filled] on;
    [filled] holds the entries assigned so far. *)
Fixpoint fillPieceInfos (src : list abiPieceInfo) (filled : list PieceInfo)
  : list PieceInfo * Z * option error :=
  match src with
  | [] => (filled, Z.of_nat (length filled), None)
  | p :: src' =>
      let '(commP, err) := to32ByteCommP (PieceCID p) in
      match err with
      | Some e => ([], 0, Some e)
      | None =>
          fillPieceInfos src'
            (filled ++ [ {| NumBytes := Unpadded deps (Size p); CommP := Inner commP |} ])
      end
  end.

Definition ToFilPublicPieceInfos (src : list abiPieceInfo)
  : list PieceInfo * Z * option error :=
  fillPieceInfos src [].

(** [for _, piece := range pieces { sum += piece.Size.Unpadded() }] *)
Definition sumUnpadded (pieces : list abiPieceInfo) : Z :=
  foldl (λ sum piece, u64 (sum + Unpadded deps (Size piece))) 0 pieces.

(** [sendSealPreCommitRequest]: the request it prints, if it gets that
    far, and the error it returns.  [uuid] is what [uuid.New()] yields. *)
Definition sendSealPreCommitRequest (uuid : string) (sector : SectorRef)
    (ticket : bytes) (pieces : list abiPieceInfo)
  : option SealPreCommitParam.t * option error :=
  let ci := {| Sector := (Miner sector, Number sector); ID := uuid |} in
  let sum := sumUnpadded pieces in
  let '(ssize, err) := SectorSize deps (RefProofType sector) in
  match err with
  | Some e => (None, Some e)
  | None =>
  let ussize := Unpadded deps ssize in
  if bool_decide (sum ≠ ussize)
  then (None, Some (Error "aggregated piece sizes don't match sector size"))
  else
  let proofType := FilRegisteredPoStProofStackedDrgWindow32GiBV1 deps in
  let '(maddr, err) := NewIDAddress deps (Miner sector) in
  match err with
  | Some e =>
      (None, Some (Wrap "failed to convert ActorID to prover id ([32]byte) for FFI" e))
  | None =>
  let proverID := Inner (To32ByteArray maddr) in
  let '(filPublicPieceInfos, filPublicPieceInfosLen, err) :=
    ToFilPublicPieceInfos pieces in
  match err with
  | Some e => (None, Some e)
  | None =>
      (Some {| SealPreCommitParam.CallID := ci;
               SealPreCommitParam.ProofType := proofType;
               SealPreCommitParam.CachePath := "cache";
               SealPreCommitParam.SealedPath := "sealed";
               SealPreCommitParam.UnsealedPath := "unsealed";
               SealPreCommitParam.SectorNumber := Number sector;
               SealPreCommitParam.ProverID := proverID;
               SealPreCommitParam.Ticket := ticket;
               SealPreCommitParam.Pieces := filPublicPieceInfos;
               SealPreCommitParam.PiecesLen := filPublicPieceInfosLen |}, None)
  end end end.

Definition sendSealCommitRequest (uuid : string) (sector : SectorRef)
    (ticket seed : bytes) (pieces : list abiPieceInfo) (cids : sectorstorage.SectorCids)
  : option SealCommitParam.t * option error :=
  let ci := {| Sector := (Miner sector, Number sector); ID := uuid |} in
  let sum := sumUnpadded pieces in
  let '(ssize, err) := SectorSize deps (RefProofType sector) in
  match err with
  | Some e => (None, Some e)
  | None =>
  let ussize := Unpadded deps ssize in
  if bool_decide (sum ≠ ussize)
  then (None, Some (Error "aggregated piece sizes don't match sector size"))
  else
  let proofType := FilRegisteredPoStProofStackedDrgWindow32GiBV1 deps in
  let '(maddr, err) := NewIDAddress deps (Miner sector) in
  match err with
  | Some e =>
      (None, Some (Wrap "failed to convert ActorID to prover id ([32]byte) for FFI" e))
  | None =>
  let '(filPublicPieceInfos, filPublicPieceInfosLen, err) :=
    ToFilPublicPieceInfos pieces in
  match err with
  | Some e => (None, Some e)
  | None =>
  let '(commR, err) := to32ByteCommR (sectorstorage.Sealed cids) in
  match err with
  | Some e => (None, Some e)
  | None =>
  let '(commD, err) := to32ByteCommD (sectorstorage.Unsealed cids) in
  match err with
  | Some e => (None, Some e)
  | None =>
      (Some {| SealCommitParam.CallID := ci;
               SealCommitParam.ProofType := proofType;
               SealCommitParam.CommD := Inner commD;
               SealCommitParam.CommR := Inner commR;
               SealCommitParam.CachePath := "cache";
               SealCommitParam.SealedPath := "sealed";
               SealCommitParam.SectorNumber := Number sector;
               SealCommitParam.ProverID := maddr;
               SealCommitParam.Ticket := ticket;
               SealCommitParam.Seed := seed;
               SealCommitParam.Pieces := filPublicPieceInfos;
               SealCommitParam.PiecesLen := filPublicPieceInfosLen |}, None)
  end end end end end.

End Requests.

End dispatch.

(** ** cmd/tvx/exec.go: the command *)

Module exec.
Import tvx.

Record execFlags := { file : string; out : string; fallbackBlockstore : bool }.

Section Command.
Variable eng : Engine.
Variable os : OS.
(** [initialize] and [destroy], which open and close the node API, and
    [ensureDir], as operations on the state and on the file system. *)
Variable initialize : State (FS os) → State (FS os) * option error.
Variable destroy : State (FS os) → State (FS os).
Variable ensureDir : FS os → string → FS os * option error.

(** [defer d] around [body]: [d] runs when [body] ends, however it ends. *)
Definition deferred {A} (d : State (FS os) → State (FS os)) (body : M (State (FS os)) A)
  : M (State (FS os)) A :=
  λ s, let '(r, s') := body s in (r, d s').

(** What [runExec] does once the fallback blockstore is settled (the
    assignment of [conformance.FallbackBlockstoreGetter] changes nothing
    of the state modelled here). *)
Definition runPath (flags : execFlags) (stdin : list (schema.TestVector * option error))
  : M (State (FS os)) unit :=
  let path := file flags in
  if bool_decide (path = "") then execVectors eng os conformance.newLogReporter stdin
  else
    st <- gets (λ s, Stat os (fs s) path) ;;
    match st with
    | StatNotExist => return_err (Error "no such file or directory")
    | StatError e => return_err e
    | StatOK isDir =>
        if isDir then
          let outdir := out flags in
          if bool_decide (outdir = "")
          then return_err (Error "no output directory provided")
          else
            err <- sys (λ d, ensureDir d outdir) ;;
            check err id ;;;
            execVectorDir eng os path outdir
        else
          res <- execVectorFile eng os conformance.newLogReporter path ;;
          check res.2.1 id
    end.

Definition runExec (flags : execFlags) (stdin : list (schema.TestVector * option error))
  : M (State (FS os)) unit :=
  if fallbackBlockstore flags then
    err <- (λ s, let '(s', e) := initialize s in (Val e, s')) ;;
    check err (Wrap
      "fallback blockstore was enabled, but could not resolve lotus API endpoint") ;;;
    deferred destroy (runPath flags stdin)
  else runPath flags stdin.

End Command.

End exec.

(** ** A small world for the requests

    CIDs are a kind prefix followed by the commitment, sectors of proof
    type 0 are 2048 bytes large, and a padded size loses one byte in 128
    when unpadded. *)

Module demo_dispatch.

Definition cid_to_commitment (kind : string) (c : Cid) : bytes * option error :=
  match trim_prefix kind c with
  | Some digest => (String.list_byte_of_string digest, None)
  | None => ([], Some (Error "unexpected commitment kind"))
  end.

Definition deps : dispatch.Deps :=
  {| dispatch.CIDToPieceCommitmentV1 := cid_to_commitment "piece:";
     dispatch.CIDToReplicaCommitmentV1 := cid_to_commitment "sealed:";
     dispatch.CIDToDataCommitmentV1 := cid_to_commitment "unsealed:";
     dispatch.Unpadded := λ s, s - s `div` 128;
     dispatch.SectorSize := λ pt,
       if bool_decide (pt = 0) then (2048, None)
       else (0, Some (Error "unsupported proof type"));
     dispatch.NewIDAddress := λ id, ([Byte.x00; Byte.xe8; Byte.x07], None);
     dispatch.FilRegisteredPoStProofStackedDrgWindow32GiBV1 := 8 |}.

Definition digest (c : Byte.byte) : bytes := replicate 32 c.

Definition piece (size : Z) (c : Byte.byte) : dispatch.abiPieceInfo :=
  {| dispatch.Size := size;
     dispatch.PieceCID := "piece:" +:+ sectorstorage.hex_of (digest c) |}.

(** A piece whose CID is a sealed-sector CID. *)
Definition notAPiece : dispatch.abiPieceInfo :=
  {| dispatch.Size := 1024;
     dispatch.PieceCID := "sealed:" +:+ sectorstorage.hex_of (digest Byte.x41) |}.

Definition sector : dispatch.SectorRef :=
  {| dispatch.Miner := 1000; dispatch.Number := 7; dispatch.RefProofType := 0 |}.

Definition halves : list dispatch.abiPieceInfo :=
  [piece 1024 Byte.x41; piece 1024 Byte.x42].

(** A response with two commitments of 32 bytes. *)
Definition sealed32 : sectorstorage.SealPreCommitResp :=
  {| sectorstorage.ErrCode := 0;
     sectorstorage.CallID := "call-2";
     sectorstorage.CommR := digest Byte.x52;
     sectorstorage.CommD := digest Byte.x44 |}.

End demo_dispatch.

(** ** More vocabulary *)

Module obs_more.
Import tvx.

Section Words.
Variable api : FullNode.
Variable eng : Engine.
Variable os : OS.

(** The messages of a block, in the order [extractTipset] packs them. *)
Definition messagesOf (msgs : types.BlockMessages) : list types.Message :=
  types.BlsMessages msgs ++ (types.Msg <$> types.SecpkMessages msgs).

(** The node has the messages of the block, and each of them serializes. *)
Definition packs (b : types.BlockHeader) : Prop :=
  ∃ msgs, ChainGetBlockMessages api (types.BlockCid b) = (Some msgs, None)
          ∧ ∀ m, m ∈ messagesOf msgs → (Serialize eng m).2 = None.

(** The block of a vector is the packed form of a block of the chain. *)
Definition packed (b : types.BlockHeader) (p : schema.Block) : Prop :=
  ∃ msgs, ChainGetBlockMessages api (types.BlockCid b) = (Some msgs, None)
          ∧ schema.MinerAddr p = types.Miner b
          ∧ schema.WinCount p = types.WinCount b
          ∧ schema.Messages p = (λ m, (Serialize eng m).1) <$> messagesOf msgs.

(** Replaying the vector returns a nil error, whatever the reporter and
    the state. *)
Definition passes (tv : schema.TestVector) : Prop :=
  ∀ r (s : State (FS os)),
    ∃ r' d s', executeTestVector eng os r tv s = (Val (r', (None, d)), s').

End Words.

End obs_more.

(** ** More of the small world *)

Module demo_more.



(** The node of [demo], except that it does not have the messages of the
    block [gone]; and a tipset whose second block is that block. *)
Definition api_gone : tvx.FullNode :=
  {| tvx.ParseTipSetRef := tvx.ParseTipSetRef demo.api;
     tvx.ChainGetTipSet := tvx.ChainGetTipSet demo.api;
     tvx.ChainGetBlockMessages := λ c,
       if bool_decide (c = "gone")
       then (None, Some (Error "block not found"))
       else tvx.ChainGetBlockMessages demo.api c;
     tvx.StateNetworkVersion := tvx.StateNetworkVersion demo.api;
     tvx.Version := tvx.Version demo.api;
     tvx.StateNetworkName := tvx.StateNetworkName demo.api |}.

Definition twoBlocks : types.TipSet :=
  {| types.Key := ["b12"; "gone"]; types.Height := 12; types.Parents := ["b11"];
     types.ParentState := "s11";
     types.Blocks := [demo.header "b12"; demo.header "gone"] |}.

(** The engine of [demo] over a blockstore that does not trace. *)
Definition eng_untraced : tvx.Engine :=
  {| tvx.Serialize := tvx.Serialize demo.eng;
     tvx.GetProtocolCodename := tvx.GetProtocolCodename demo.eng;
     tvx.ExecuteTipset := tvx.ExecuteTipset demo.eng;
     tvx.blockstoreTraces := false;
     tvx.ExecuteMessageVector := tvx.ExecuteMessageVector demo.eng;
     tvx.ExecuteTipsetVector := tvx.ExecuteTipsetVector demo.eng |}.

(** A stream of a vector, a line that does not decode, and a vector. *)
Definition good : schema.TestVector :=
  demo.messageVector "message" [demo.variant "genesis" 1].
Definition stream : list (schema.TestVector * option error) :=
  [(good, None)] ++ (demo.messageVector "" [], Some (Error "invalid character"))
    :: [(demo.twoVariants, None)].

(** The flags of [tvx exec --file in], without [--out]. *)
Definition flags : exec.execFlags :=
  {| exec.file := "in"; exec.out := ""; exec.fallbackBlockstore := false |}.

End demo_more.

(** ** Vocabulary of the replay log *)

Module obs_replay.
Import tvx obs.

(** The log after [lines] were printed, one after the other, on a logger
    whose output is the writers [ws]: every line reaches every writer. *)
Definition said (ws : list string) (lines : list string) : list (string * string) :=
  line ← lines; (λ w, (w, line)) <$> ws.

(** The line [executeTestVector] prints once a variant was executed. *)
Definition verdict (run : conformance.Replay) (v : schema.Variant) : string :=
  if conformance.Failed (conformance.reporter run)
  then "test vector failed for variant " +:+ schema.ID v
  else "test vector succeeded for variant " +:+ schema.ID v.

(** The lines the loop of [executeTestVector] prints for a class whose
    execution path is [execute]: for every variant, what its execution
    logged, then its verdict. *)
Fixpoint replayLines
    (execute : conformance.LogReporter → schema.TestVector → schema.Variant
               → conformance.Replay)
    (r : conformance.LogReporter) (tv : schema.TestVector)
    (vs : list schema.Variant) : list string :=
  match vs with
  | [] => []
  | v :: vs' =>
      let run := execute r tv v in
      conformance.output run ++ verdict run v
        :: replayLines execute (conformance.reporter run) tv vs'
  end.

Section Files.
Variable eng : Engine.
Variable os : OS.





End Files.

End obs_replay.

(** ** The small world, without metadata and with twin files *)

Module demo_replay.

(** A vector that carries no [_meta] block. *)
Definition bare (class : string) (vs : list schema.Variant) : schema.TestVector :=
  {| schema.Class := class;
     schema.Meta := None;
     schema.Selector := ∅;
     schema.Randomness := [];
     schema.CAR := [];
     schema.Pre := Some {| schema.Variants := vs; schema.PreBaseFee := 100;
                           schema.PreStateTree := None |};
     schema.ApplyTipsets := [];
     schema.Post := None |}.

(** Replay of such a vector, of class "message": without variants, and
    with two. *)
Definition replayBare : result tvx.Outcome * tvx.State (tvx.FS demo.os) :=
  tvx.executeTestVector demo.eng demo.os conformance.newLogReporter
    (bare "message" []) demo.start.
Definition replayBareTwo : result tvx.Outcome * tvx.State (tvx.FS demo.os) :=
  tvx.executeTestVector demo.eng demo.os conformance.newLogReporter
    (bare "message" [demo.variant "genesis" 1; demo.variant "genesis" 2]) demo.start.




(** The file system of [demo], except that the second file of the input
    directory decodes to a vector without [_meta]. *)
Definition os_bare : tvx.OS :=
  {| tvx.FS := demo.files;
     tvx.Join := tvx.Join demo.os;
     tvx.Stat := tvx.Stat demo.os;
     tvx.MkdirAll := tvx.MkdirAll demo.os;
     tvx.Create := tvx.Create demo.os;
     tvx.Open := tvx.Open demo.os;
     tvx.Glob := tvx.Glob demo.os;
     tvx.Decode := λ b,
       if bool_decide (b = [Byte.x7b])
       then (bare "message" [demo.variant "genesis" 1], None)
       else tvx.Decode demo.os b;
     tvx.writeVector := tvx.writeVector demo.os |}.

Definition replayDirBare : result unit * tvx.State (tvx.FS os_bare) :=
  tvx.execVectorDir demo.eng os_bare "in" "out"
    {| tvx.fs := demo.disk; tvx.logOutput := ["stderr"]; tvx.logged := [];
       tvx.trace := [] |}.

End demo_replay.

(** * Properties *)

Import tvx obs.

Lemma bind_eq {S A B} (m : M S A) (k : A → M S B) (s : S) :
  bind m k s = match m s with
               | (Val a, s') => k a s'
               | (Return e, s') => (Return e, s')
               | (Panic w, s') => (Panic w, s')
               | (Unfinished, s') => (Unfinished, s')
               end.
Proof. reflexivity. Qed.

Lemma logging_nil {F} (s : State F) : logging [] s = s.
Proof. destruct s; unfold logging; simpl. by rewrite app_nil_r. Qed.

Lemma logging_logging {F} l1 l2 (s : State F) :
  logging l2 (logging l1 s) = logging (l1 ++ l2) s.
Proof. unfold logging; simpl. by rewrite app_assoc. Qed.

Lemma Println_logging {F} line (s : State F) :
  Println line s = (Val tt, logging ((λ w, (w, line)) <$> logOutput s) s).
Proof. reflexivity. Qed.

Lemma emit_eq {F} e (s : State F) : emit e s = (Val tt, tracing_more [e] s).
Proof. reflexivity. Qed.

Lemma sys_eq {F} (op : F → F * option error) (s : State F) :
  sys op s = (Val (op (fs s)).2, set_fs (op (fs s)).1 s).
Proof. unfold sys. by destruct (op (fs s)). Qed.

Lemma added_app {F} (s s' : State F) evs :
  trace s' = trace s ++ evs → added s s' = evs.
Proof. unfold added. intros ->. by rewrite drop_app_length. Qed.

(** Symbolic execution of a sequence of statements. *)
Ltac go :=
  repeat first
    [ rewrite bind_eq
    | rewrite Println_logging
    | rewrite emit_eq
    | rewrite sys_eq
    | progress cbn [deref ret check return_err firstBlock panic unfinished gets
                    rbind rcheck rderef negb fst snd id] ].

Ltac same_state :=
  eexists; unfold logging, tracing_more, set_fs; cbn [fs logOutput logged trace];
  rewrite <- ?app_assoc; reflexivity.

(** ** [extractTipset] *)

Section ExtractFacts.
Variable api : FullNode.
Variable eng : Engine.
Variable ar : Archive.
Variable os : OS.
Variable extractFlags_retain : string.

Abbreviation St := (State (FS os)).

Lemma pack_packed_of ms packed (s : St) :
  pack eng os ms packed s = (packed_of eng ms packed, s).
Proof.
  revert packed. induction ms as [|m ms IH]; intros packed; simpl; [done|].
  destruct (Serialize eng m) as [b [e|]]; simpl; [done|].
  unfold bind; simpl. apply IH.
Qed.

Lemma packBlocks_blocks_of bs blocks (s : St) :
  ∃ lines, packBlocks api eng os bs blocks s
           = (blocks_of api eng bs blocks, logging lines s).
Proof.
  revert blocks s. induction bs as [|b bs IH]; intros blocks s; simpl.
  { exists []. by rewrite logging_nil. }
  destruct (ChainGetBlockMessages api (types.BlockCid b)) as [msgs [e|]]; simpl.
  { exists []. by rewrite logging_nil. }
  destruct msgs as [msgs|]; simpl.
  2: { exists []. by rewrite logging_nil. }
  go. rewrite pack_packed_of.
  destruct (packed_of eng (types.BlsMessages msgs) []) as [p1| | |]; simpl;
    try by eexists.
  go. rewrite pack_packed_of.
  destruct (packed_of eng _ p1) as [p2| | |]; simpl; try by eexists.
  match goal with
  | |- context [packBlocks _ _ _ bs ?acc ?s1] => destruct (IH acc s1) as [lines ->]
  end.
  rewrite logging_logging. by eexists.
Qed.

Lemma appendReceipts_fmap rs acc :
  appendReceipts rs acc = acc ++ (toReceipt <$> rs).
Proof.
  revert acc. induction rs as [|r rs IH]; intros acc; simpl.
  - by rewrite app_nil_r.
  - rewrite IH, <- app_assoc. done.
Qed.

(** [extractTipset] writes the vector [assemble] computes, or ends as
    [assemble] does. *)
Lemma extractTipset_assemble ts path (s : St) :
  ∃ lines, extractTipset api eng ar os extractFlags_retain (Some ts) path s
           = extracted api eng ar os ts path lines s.
Proof.
  unfold extractTipset, extracted, assemble, archive, accessedBy.
  go.
  match goal with
  | |- context [packBlocks _ _ _ ?bs ?acc ?s1] =>
      destruct (packBlocks_blocks_of bs acc s1) as [l1 ->]
  end.
  destruct (blocks_of api eng (types.Blocks ts) []) as [blocks| | |]; go;
    try same_state.
  destruct (types.Blocks ts) as [|b0 bs]; go; [same_state|].
  destruct (blockstoreTraces eng); go; [|same_state].
  unfold paramsOf.
  destruct (conformance.err (ExecuteTipset eng _)) as [e|]; go; [same_state|].
  destruct (FinishTracing _) as [tbs accessed] eqn:Hfin; cbn [snd]; go.
  destruct (conformance.result (ExecuteTipset eng _)) as [res|]; go; [|same_state].
  destruct (WriteCARIncluding ar _ _ _) as [gw1 [e|]]; go; [same_state|].
  destruct (Flush ar gw1) as [gw2 [e|]]; go; [same_state|].
  destruct (Close ar gw2) as [gw3 [e|]]; go; [same_state|].
  destruct (StateNetworkVersion api _) as [nv [e|]]; go; [same_state|].
  destruct (Version api) as [version [e|]]; go; [same_state|].
  destruct (StateNetworkName api) as [name [e|]]; go; [same_state|].
  unfold vectorOf. rewrite appendReceipts_fmap. cbn [app].
  destruct (writeVector os _ _ _) as [f [e|]] eqn:Hw; go; same_state.
Qed.

Lemma packed_of_finishes ms packed : packed_of eng ms packed ≠ Unfinished.
Proof.
  revert packed. induction ms as [|m ms IH]; intros packed; simpl; [done|].
  destruct (Serialize eng m) as [b [e|]]; simpl; [done|]. apply IH.
Qed.

Lemma blocks_of_finishes bs blocks : blocks_of api eng bs blocks ≠ Unfinished.
Proof.
  revert blocks. induction bs as [|b bs IH]; intros blocks; simpl; [done|].
  destruct (ChainGetBlockMessages api (types.BlockCid b)) as [[msgs|] [e|]]; simpl;
    try done.
  pose proof (packed_of_finishes (types.BlsMessages msgs) []) as H1.
  destruct (packed_of eng (types.BlsMessages msgs) []) as [p1| | |]; simpl; try done.
  pose proof (packed_of_finishes (types.Msg <$> types.SecpkMessages msgs) p1) as H2.
  destruct (packed_of eng _ p1) as [p2| | |]; simpl; try done.
Qed.

Lemma assemble_finishes ts : assemble api eng ar ts ≠ Unfinished.
Proof.
  unfold assemble, archive.
  pose proof (blocks_of_finishes (types.Blocks ts) []) as Hb.
  destruct (blocks_of api eng (types.Blocks ts) []) as [blocks| | |]; simpl; try done.
  destruct (types.Blocks ts) as [|b0 bs]; simpl; [done|].
  destruct (blockstoreTraces eng); simpl; [|done].
  destruct (conformance.err _) as [e|]; simpl; [done|].
  destruct (conformance.result _) as [res|]; simpl; [|done].
  destruct (WriteCARIncluding ar _ _ _) as [gw1 [e|]]; simpl; [done|].
  destruct (Flush ar gw1) as [gw2 [e|]]; simpl; [done|].
  destruct (Close ar gw2) as [gw3 [e|]]; simpl; [done|].
  destruct (StateNetworkVersion api _) as [nv [e|]]; simpl; [done|].
  destruct (Version api) as [version [e|]]; simpl; [done|].
  destruct (StateNetworkName api) as [name [e|]]; simpl; done.
Qed.

(** What a vector that was assembled is made of. *)
Lemma assemble_inv ts v :
  assemble api eng ar ts = Val v →
  ∃ blocks b0 bs res w1 w2 w3,
    blocks_of api eng (types.Blocks ts) [] = Val blocks ∧
    types.Blocks ts = b0 :: bs ∧
    blockstoreTraces eng = true ∧
    let run := ExecuteTipset eng (paramsOf ts blocks (types.ParentBaseFee b0)) in
    conformance.err run = None ∧
    conformance.result run = Some res ∧
    WriteCARIncluding ar (NewWriter ar) (accessedBy (conformance.fetched run))
      [types.ParentState ts; conformance.PostStateRoot res] = (w1, None) ∧
    Flush ar w1 = (w2, None) ∧
    Close ar w2 = (w3, None) ∧
    (StateNetworkVersion api (types.Key ts)).2 = None ∧
    (Version api).2 = None ∧
    (StateNetworkName api).2 = None ∧
    v = vectorOf eng ts blocks (types.ParentBaseFee b0) run res (Bytes ar w3)
          (StateNetworkVersion api (types.Key ts)).1
          (Version api).1 (StateNetworkName api).1.
Proof.
  unfold assemble, archive.
  destruct (blocks_of api eng (types.Blocks ts) []) as [blocks| | |]; simpl; try done.
  destruct (types.Blocks ts) as [|b0 bs]; simpl; [done|].
  destruct (blockstoreTraces eng); simpl; [|done].
  destruct (conformance.err _) as [e|] eqn:He; simpl; [done|].
  destruct (conformance.result _) as [res|] eqn:Hr; simpl; [|done].
  destruct (WriteCARIncluding ar _ _ _) as [gw1 [e|]] eqn:Hw; simpl; [done|].
  destruct (Flush ar gw1) as [gw2 [e|]] eqn:Hf; simpl; [done|].
  destruct (Close ar gw2) as [gw3 [e|]] eqn:Hc; simpl; [done|].
  destruct (StateNetworkVersion api _) as [nv [e|]]; simpl; [done|].
  destruct (Version api) as [version [e|]]; simpl; [done|].
  destruct (StateNetworkName api) as [name [e|]]; simpl; [done|].
  intros [= <-]. by exists blocks, b0, bs, res, gw1, gw2, gw3.
Qed.

(** The events one call records. *)
Lemma extractTipset_added ts path (s : St) r s' :
  extractTipset api eng ar os extractFlags_retain (Some ts) path s = (r, s') →
  r ≠ Unfinished ∧
  ((∃ v, assemble api eng ar ts = Val v ∧ fs s' = (writeVector os (fs s) v path).1 ∧
         r = match (writeVector os (fs s) v path).2 with
             | Some e => Return e
             | None => Val tt
             end ∧
         trace s' = trace s ++ [EvExtractTipset ts path; EvWriteVector v path])
   ∨ (aborted r ∧ aborted (assemble api eng ar ts) ∧ fs s' = fs s ∧
      trace s' = trace s ++ [EvExtractTipset ts path])).
Proof.
  destruct (extractTipset_assemble ts path s) as [lines ->].
  unfold extracted. pose proof (assemble_finishes ts) as Hfin.
  destruct (assemble api eng ar ts) as [v|e|w|]; intros [= <- <-]; simpl;
    try done; try (split; [done|]; right; done).
  split; [by destruct (writeVector os (fs s) v path).2|].
  left. by exists v.
Qed.

Lemma extractTipset_nil path (s : St) :
  extractTipset api eng ar os extractFlags_retain None path s
  = (Panic "invalid memory address or nil pointer dereference", s).
Proof. reflexivity. Qed.

Lemma accessedBy_set cs : accessedBy cs = list_to_set cs.
Proof.
  unfold accessedBy, FinishTracing, StartTracing; cbn [snd traced].
  assert (∀ t, tracing t = true →
            tracing (foldl (λ t c, Get c t) t cs) = true ∧
            traced (foldl (λ t c, Get c t) t cs) = traced t ∪ list_to_set cs) as H.
  { induction cs as [|c cs IH]; intros t Ht; simpl.
    - split; [done|]. by rewrite (right_id_L ∅ (∪)).
    - destruct (IH (Get c t)) as [H1 H2].
      { unfold Get. by rewrite Ht. }
      split; [done|]. rewrite H2. unfold Get. rewrite Ht. simpl.
      by rewrite (assoc_L (∪)). }
  destruct (H {| tracing := true; traced := ∅ |} eq_refl) as [_ ->].
  simpl. by rewrite (left_id_L ∅ (∪)).
Qed.

End ExtractFacts.

Section ExtractClaims.
Variable api : FullNode.
Variable eng : Engine.
Variable ar : Archive.
Variable os : OS.
Variable extractFlags_retain : string.

(** C3. Whenever [extractTipset] hands a vector to [writeVector], the
    archive in it was written by [WriteCARIncluding] with, as allow-list,
    exactly the set of the objects the driver fetched while tracing was on
    and, as roots, the pre-execution state root followed by the
    post-execution state root, the two roots the vector declares. *)
Theorem extractTipset_archive_walk ts path (s : State (FS os)) r s' v p :
  extractTipset api eng ar os extractFlags_retain (Some ts) path s = (r, s') →
  EvWriteVector v p ∈ added s s' →
  ∃ blocks b0 res w pre post,
    let run := ExecuteTipset eng (paramsOf ts blocks (types.ParentBaseFee b0)) in
    conformance.result run = Some res ∧
    WriteCARIncluding ar (NewWriter ar) (list_to_set (conformance.fetched run))
      [types.ParentState ts; conformance.PostStateRoot res] = (w, None) ∧
    schema.CAR v = Bytes ar (Close ar (Flush ar w).1).1 ∧
    schema.Pre v = Some pre ∧
    schema.PreStateTree pre = Some {| schema.RootCID := types.ParentState ts |} ∧
    schema.Post v = Some post ∧
    schema.PostStateTree post
      = Some {| schema.RootCID := conformance.PostStateRoot res |}.
Proof.
  intros Hrun Hin.
  destruct (extractTipset_added api eng ar os extractFlags_retain _ _ _ _ _ Hrun)
    as [_ [(v' & Hv & _ & _ & Htr) | (_ & _ & _ & Htr)]];
    rewrite (added_app _ _ _ Htr) in Hin.
  2: { apply list_elem_of_singleton in Hin. discriminate. }
  apply elem_of_cons in Hin as [Hin | Hin]; [discriminate|].
  apply list_elem_of_singleton in Hin. injection Hin as <- <-.
  apply assemble_inv in Hv
    as (blocks & b0 & bs & res & w1 & w2 & w3 & _ & _ & _ & _ & Hres & Hw & Hf & Hc
        & _ & _ & _ & ->).
  rewrite accessedBy_set in Hw.
  exists blocks, b0, res, w1. eexists _, _. cbn zeta.
  split; [exact Hres|]. split; [exact Hw|].
  rewrite Hf; cbn [fst]. rewrite Hc; cbn [fst].
  repeat split; reflexivity.
Qed.

(** C4. A successful extraction of the tipset at height [H] writes one
    vector: its [apply_tipsets] is the one tipset that was executed, its
    preconditions carry exactly one variant, of epoch [H], and its
    receipts are the results the driver applied, in the order of
    application: one receipt per result, carrying the exit code, the
    return bytes and the gas used of that result. *)
Theorem extractTipset_vector_shape ts path (s : State (FS os)) s' :
  extractTipset api eng ar os extractFlags_retain (Some ts) path s = (Val tt, s') →
  ∃ v tipset pre variant post res,
    added s s' = [EvExtractTipset ts path; EvWriteVector v path] ∧
    schema.ApplyTipsets v = [tipset] ∧
    length (schema.ApplyTipsets v) = 1%nat ∧
    schema.Pre v = Some pre ∧
    schema.Variants pre = [variant] ∧
    schema.Epoch variant = types.Height ts ∧
    conformance.result
      (ExecuteTipset eng
         {| conformance.Preroot := types.ParentState ts;
            conformance.ParentEpoch := wrap64 (types.Height ts - 1);
            conformance.Tipset := tipset;
            conformance.ExecEpoch := types.Height ts |}) = Some res ∧
    schema.Post v = Some post ∧
    schema.Receipts post
      = (λ applied, {| schema.ExitCode := conformance.ExitCode applied;
                       schema.ReturnValue := conformance.Return applied;
                       schema.GasUsed := conformance.GasUsed applied |})
        <$> conformance.AppliedResults res ∧
    length (schema.Receipts post) = length (conformance.AppliedResults res) ∧
    (∀ i applied, conformance.AppliedResults res !! i = Some applied →
       ∃ receipt, schema.Receipts post !! i = Some receipt
                  ∧ schema.ExitCode receipt = conformance.ExitCode applied
                  ∧ schema.ReturnValue receipt = conformance.Return applied
                  ∧ schema.GasUsed receipt = conformance.GasUsed applied).
Proof.
  intros Hrun.
  destruct (extractTipset_added api eng ar os extractFlags_retain _ _ _ _ _ Hrun)
    as [_ [(v & Hv & _ & _ & Htr) | (Hab & _)]]; [|destruct Hab].
  apply assemble_inv in Hv
    as (blocks & b0 & bs & res & w1 & w2 & w3 & _ & _ & _ & _ & Hres & _ & _ & _
        & _ & _ & _ & ->).
  eexists _, _, _, _, _, res. cbn zeta.
  split; [by apply added_app|].
  do 5 (split; [reflexivity|]). split; [exact Hres|].
  split; [reflexivity|]. split; [reflexivity|].
  cbn [schema.Receipts]. split; [by rewrite length_fmap|].
  intros i applied Hi. eexists. rewrite list_lookup_fmap, Hi.
  split; [reflexivity|]. by unfold toReceipt.
Qed.

(** C8. The buffer under the gzip writer becomes the archive of a vector
    only after [WriteCARIncluding], [Flush] and [Close] have returned nil,
    in this order, on that writer; when one of the three returns an error,
    [extractTipset] returns it, hands no vector to [writeVector] and
    leaves the file system as it was. *)
Theorem extractTipset_archive_closed ts path (s : State (FS os)) r s' :
  extractTipset api eng ar os extractFlags_retain (Some ts) path s = (r, s') →
  (∀ v p, EvWriteVector v p ∈ added s s' →
     ∃ accessed roots w1 w2 w3,
       WriteCARIncluding ar (NewWriter ar) accessed roots = (w1, None) ∧
       Flush ar w1 = (w2, None) ∧
       Close ar w2 = (w3, None) ∧
       schema.CAR v = Bytes ar w3)
  ∧ (∀ blocks b0 bs res e,
       blocks_of api eng (types.Blocks ts) [] = Val blocks →
       types.Blocks ts = b0 :: bs →
       blockstoreTraces eng = true →
       let run := ExecuteTipset eng (paramsOf ts blocks (types.ParentBaseFee b0)) in
       conformance.err run = None →
       conformance.result run = Some res →
       archive ar (accessedBy (conformance.fetched run))
         [types.ParentState ts; conformance.PostStateRoot res] = Return e →
       r = Return e ∧ writes (added s s') = [] ∧ fs s' = fs s).
Proof.
  intros Hrun. split.
  - intros v p Hin.
    destruct (extractTipset_added api eng ar os extractFlags_retain _ _ _ _ _ Hrun)
      as [_ [(v' & Hv & _ & _ & Htr) | (_ & _ & _ & Htr)]];
      rewrite (added_app _ _ _ Htr) in Hin.
    2: { apply list_elem_of_singleton in Hin. discriminate. }
    apply elem_of_cons in Hin as [Hin | Hin]; [discriminate|].
    apply list_elem_of_singleton in Hin. injection Hin as <- <-.
    apply assemble_inv in Hv
      as (blocks & b0 & bs & res & w1 & w2 & w3 & _ & _ & _ & _ & _ & Hw & Hf & Hc
          & _ & _ & _ & ->).
    by eexists _, _, w1, w2, w3.
  - intros blocks b0 bs res e Hb Hbs Htr run Herr Hres Har.
    assert (assemble api eng ar ts = Return e) as Has.
    { unfold assemble. rewrite Hb, Hbs. cbn [rbind]. rewrite Htr. cbn [negb].
      fold run. rewrite Herr, Hres. cbn [rcheck rderef rbind]. by rewrite Har. }
    destruct (extractTipset_assemble api eng ar os extractFlags_retain ts path s)
      as [lines Heq].
    rewrite Heq in Hrun. unfold extracted in Hrun. rewrite Has in Hrun.
    injection Hrun as <- <-.
    split; [done|]. split; [|done].
    by rewrite (added_app s _ [EvExtractTipset ts path]).
Qed.

End ExtractClaims.

Lemma extractTipset_archive_walk_witness :
  ∃ w, schema.CAR demo.vector12 = Bytes demo.ar w.
Proof.
  destruct (extractTipset_archive_walk demo.api demo.eng demo.ar demo.os
              "accessed-cids" demo.t12 "vectors/t12.json" demo.start
              (Val tt) demo.extract12.2 demo.vector12 "vectors/t12.json")
    as (blocks & b0 & res & w & pre & post & _ & _ & Hcar & _).
  - vm_compute. reflexivity.
  - apply list_elem_of_In. vm_compute. right. left. reflexivity.
  - eexists. exact Hcar.
Defined.

Lemma extractTipset_vector_shape_witness :
  ∃ v variant, (v, "vectors/t12.json") ∈ writes (added demo.start demo.extract12.2)
               ∧ schema.Variants <$> schema.Pre v = Some [variant]
               ∧ schema.Epoch variant = 12
               ∧ ∃ post res,
                   schema.Post v = Some post
                   ∧ schema.ExitCode <$> schema.Receipts post
                     = conformance.ExitCode <$> conformance.AppliedResults res
                   ∧ schema.ReturnValue <$> schema.Receipts post
                     = conformance.Return <$> conformance.AppliedResults res
                   ∧ schema.GasUsed <$> schema.Receipts post
                     = conformance.GasUsed <$> conformance.AppliedResults res.
Proof.
  destruct (extractTipset_vector_shape demo.api demo.eng demo.ar demo.os
              "accessed-cids" demo.t12 "vectors/t12.json" demo.start
              demo.extract12.2)
    as (v & tipset & pre & variant & post & res & Hadd & _ & _ & Hpre & Hvar & Hep
        & _ & Hpost & Hrec & _).
  - vm_compute. reflexivity.
  - exists v, variant. rewrite Hadd, Hpre. cbn. rewrite Hvar.
    split; [by apply list_elem_of_singleton|]. split; [done|].
    split; [exact Hep|]. exists post, res. split; [exact Hpost|].
    rewrite Hrec, <- !list_fmap_compose. done.
Defined.

Lemma extractTipset_archive_closed_witness :
  (demo.extract12_unclosed).1 = Return (Error "short write")
  ∧ writes (added demo.start (demo.extract12_unclosed).2) = []
  ∧ fs (demo.extract12_unclosed).2 = demo.disk.
Proof.
  destruct (extractTipset_archive_closed demo.api demo.eng demo.ar_unclosed demo.os
              "accessed-cids" demo.t12 "vectors/t12.json" demo.start
              (demo.extract12_unclosed).1 (demo.extract12_unclosed).2)
    as [_ Hfail].
  - exact (surjective_pairing demo.extract12_unclosed).
  - eapply Hfail; vm_compute; reflexivity.
Defined.

(** The receipts of the vector of that extraction: the driver applied two
    messages, which used 1 and 2 units of gas. *)
Example vector12_receipts :
  schema.Receipts <$> schema.Post demo.vector12
  = Some [ {| schema.ExitCode := 0; schema.ReturnValue := [Byte.x01];
              schema.GasUsed := 1 |};
           {| schema.ExitCode := 0; schema.ReturnValue := [Byte.x02; Byte.x03];
              schema.GasUsed := 2 |} ].
Proof. vm_compute. reflexivity. Qed.

(** The same extraction with a writer that closes: the vector is written. *)
Example extract12_writes :
  demo.extract12.1 = Val tt
  ∧ snd <$> writes (trace demo.extract12.2) = ["vectors/t12.json"].
Proof. split; vm_compute; reflexivity. Qed.

(** ** [extractTipsetRange] *)

Section RangeFacts.
Variable api : FullNode.
Variable eng : Engine.
Variable ar : Archive.
Variable os : OS.
Variable extractFlags_retain : string.

Abbreviation St := (State (FS os)).
Abbreviation loops dir := (λ c : types.TipSet, (c, loopPath os dir c)).

Lemma visits_app evs1 evs2 : visits (evs1 ++ evs2) = visits evs1 ++ visits evs2.
Proof. apply omap_app. Qed.

Lemma writes_app evs1 evs2 : writes (evs1 ++ evs2) = writes evs1 ++ writes evs2.
Proof. apply omap_app. Qed.

Lemma planned_cons dir c l :
  l ≠ [] → planned os dir (c :: l) = (c, loopPath os dir c) :: planned os dir l.
Proof. by destruct l. Qed.

Lemma planned_snoc dir pre last :
  planned os dir (pre ++ [last]) = (loops dir <$> pre) ++ [(last, leftPath os dir last)].
Proof.
  induction pre as [|c pre IH]; [done|].
  rewrite <- app_comm_cons, planned_cons, IH; [done|].
  by destruct pre.
Qed.

Lemma call_eq {S} (m : M S unit) (s : S) :
  call m s = match m s with
             | (Val _, s') => (Val None, s')
             | (Return e, s') => (Val (Some e), s')
             | (Panic w, s') => (Panic w, s')
             | (Unfinished, s') => (Unfinished, s')
             end.
Proof. reflexivity. Qed.

(** One call of [extractTipset] from the loop: it records one visit, and
    the loop goes on exactly when it returned nil. *)
Lemma extractTipset_step c path (s : St) r s' :
  extractTipset api eng ar os extractFlags_retain (Some c) path s = (r, s') →
  ∃ evs, trace s' = trace s ++ evs ∧ visits evs = [(c, path)] ∧
         snd <$> writes evs ⊆ [path] ∧
         (r = Val tt → snd <$> writes evs = [path]) ∧
         r ≠ Unfinished.
Proof.
  intros Hrun.
  destruct (extractTipset_added api eng ar os extractFlags_retain _ _ _ _ _ Hrun)
    as [Hfin [(v & _ & _ & _ & Htr) | (Hab & _ & _ & Htr)]].
  - eexists. split; [exact Htr|]. by repeat split.
  - eexists. split; [exact Htr|]. repeat split; try done.
    + cbn. apply list_subseteq_nil.
    + intros ->. destruct Hab.
Qed.

Lemma chain_nonempty k c l : chain api k c l → l ≠ [].
Proof. by destruct 1. Qed.

Lemma take_planned dir l k :
  (k < length l)%nat → take k (planned os dir l) = take k (loops dir <$> l).
Proof.
  revert k. induction l as [|c l IH]; intros k Hk; [simpl in Hk; lia|].
  destruct k as [|k]; [done|].
  destruct l as [|c' l]; [simpl in Hk; lia|].
  rewrite planned_cons by done. cbn [fmap list_fmap take]. f_equal.
  apply IH. simpl in *. lia.
Qed.

Lemma walkBack_chain left dir c l :
  chain api (types.Key left) c l →
  ∀ n (s : St), (length l ≤ n)%nat →
  ∃ r s' evs,
    walkBack api eng ar os extractFlags_retain n (Some left) (Some c) dir s = (r, s') ∧
    trace s' = trace s ++ evs ∧
    ((∃ pre last, l = pre ++ [last] ∧ r = Val (Some last) ∧
                  visits evs = loops dir <$> pre ∧
                  snd <$> writes evs = snd <$> (loops dir <$> pre))
     ∨ (aborted r ∧ ∃ k, (k < length l)%nat ∧ visits evs = take k (loops dir <$> l))).
Proof.
  induction 1 as [c Hk | c p l Hk Hget Hlt Hch IH]; intros n s Hn.
  - destruct n as [|n]; [simpl in Hn; lia|].
    cbn [walkBack]. go. rewrite bool_decide_false by (by intros Hne; apply Hne).
    cbn [ret]. exists (Val (Some c)), s, []. split; [done|].
    split; [by rewrite app_nil_r|]. left. by exists [], c.
  - destruct n as [|n]; [simpl in Hn; lia|].
    pose proof (chain_nonempty _ _ _ Hch) as Hne.
    assert (1 < length (c :: l))%nat as Hlen by (destruct l; [done|simpl; lia]).
    cbn [walkBack]. go. rewrite bool_decide_true by done.
    go. rewrite call_eq.
    destruct (extractTipset _ _ _ _ _ _ _ _) as [r1 s1] eqn:Hrun.
    apply extractTipset_step in Hrun as (evs1 & Htr1 & Hv1 & Hw1 & Hok1 & Hfin1).
    cbn [trace logging] in Htr1.
    destruct r1 as [[]|e1|w1|]; [| | |done].
    + go. rewrite Hget. cbn [fst snd].
      destruct (IH n s1) as (r & s' & evs & Hwalk & Htr & Hres); [simpl in Hn; lia|].
      exists r, s', (evs1 ++ evs). split; [exact Hwalk|].
      split; [by rewrite Htr, Htr1, app_assoc|].
      rewrite visits_app, writes_app, fmap_app, Hv1, (Hok1 eq_refl).
      destruct Hres as [(pre & last & -> & -> & Hv & Hw) | (Hab & k & Hk' & Hv)].
      * left. exists (c :: pre), last. rewrite Hv, Hw. by repeat split.
      * right. split; [done|]. exists (S k). rewrite Hv. split; [simpl; lia|done].
    + go. eexists _, _, evs1. split; [reflexivity|]. split; [done|].
      right. split; [done|]. exists 1%nat. by rewrite Hv1.
    + eexists _, _, evs1. split; [reflexivity|]. split; [done|].
      right. split; [done|]. exists 1%nat. by rewrite Hv1.
Qed.

Lemma walkBack_broken left dir p e c l :
  broken api (types.Key left) p e c l →
  ∀ n (s : St), (length l ≤ n)%nat →
  ∃ r s' evs,
    walkBack api eng ar os extractFlags_retain n (Some left) (Some c) dir s = (r, s') ∧
    trace s' = trace s ++ evs ∧
    match r with
    | Return err =>
        err = Error "failed to extract tipset"
        ∨ (err = Wrap "failed to get tipset" e ∧ is_Some p)
    | Panic _ => True
    | Val _ | Unfinished => False
    end ∧
    ∃ k, visits evs = take k (loops dir <$> l).
Proof.
  induction 1 as [c Hk Hget | c q l Hk Hget Hbr IH]; intros n s Hn;
    (destruct n as [|n]; [simpl in Hn; lia|]);
    cbn [walkBack]; go; rewrite bool_decide_true by done;
    go; rewrite call_eq;
    destruct (extractTipset _ _ _ _ _ _ _ _) as [r1 s1] eqn:Hrun;
    apply extractTipset_step in Hrun as (evs1 & Htr1 & Hv1 & Hw1 & Hok1 & Hfin1);
    cbn [trace logging] in Htr1;
    (destruct r1 as [[]|e1|w1|]; [| | |done]).
  - go. rewrite Hget. destruct p as [p|]; go.
    + eexists _, _, evs1. split; [reflexivity|]. split; [done|].
      split; [right; by split|]. exists 1%nat. by rewrite Hv1.
    + eexists _, _, evs1. split; [reflexivity|]. split; [done|].
      split; [done|]. exists 1%nat. by rewrite Hv1.
  - go. eexists _, _, evs1. split; [reflexivity|]. split; [done|].
    split; [by left|]. exists 1%nat. by rewrite Hv1.
  - eexists _, _, evs1. split; [reflexivity|]. split; [done|].
    split; [done|]. exists 1%nat. by rewrite Hv1.
  - go. rewrite Hget. cbn [fst snd].
    destruct (IH n s1) as (r & s' & evs & Hwalk & Htr & Hab & [k Hv]);
      [simpl in Hn; lia|].
    exists r, s', (evs1 ++ evs). split; [exact Hwalk|].
    split; [by rewrite Htr, Htr1, app_assoc|]. split; [done|].
    rewrite visits_app, Hv1. exists (S k). by rewrite Hv.
  - go. eexists _, _, evs1. split; [reflexivity|]. split; [done|].
    split; [by left|]. exists 1%nat. by rewrite Hv1.
  - eexists _, _, evs1. split; [reflexivity|]. split; [done|].
    split; [done|]. exists 1%nat. by rewrite Hv1.
Qed.

(** On a valid range the walk ends, and visits the parent chain from
    [right] back to [left] in this order; it writes the tipsets above
    [left] at [epoch-<height>] and [left] at [epoch-<height>.json]. *)
Lemma extractTipsetRange_visits left right dir l n (s : St) :
  chain api (types.Key left) right l →
  (length l ≤ n)%nat →
  ∃ r s' evs,
    extractTipsetRange api eng ar os extractFlags_retain n (Some left) (Some right) dir s
      = (r, s') ∧
    r ≠ Unfinished ∧
    trace s' = trace s ++ evs ∧
    (∃ k, visits evs = take k (planned os dir l)) ∧
    (r = Val tt →
       visits evs = planned os dir l ∧
       snd <$> writes evs = snd <$> planned os dir l).
Proof.
  intros Hch Hn. unfold extractTipsetRange. go.
  destruct (walkBack_chain left dir right l Hch n s Hn)
    as (r & s1 & evs1 & -> & Htr1 & Hres).
  destruct Hres as [(pre & last & -> & -> & Hv & Hw) | (Hab & k & Hk & Hv)].
  - go.
    destruct (extractTipset _ _ _ _ _ _ _ _) as [r2 s2] eqn:Hrun.
    apply extractTipset_step in Hrun as (evs2 & Htr2 & Hv2 & Hw2 & Hok2 & Hfin2).
    cbn [trace logging] in Htr2.
    exists r2, s2, (evs1 ++ evs2). split; [done|]. split; [done|].
    split; [by rewrite Htr2, Htr1, app_assoc|].
    rewrite visits_app, writes_app, fmap_app, Hv, Hw, Hv2, planned_snoc.
    split.
    + exists (length (pre ++ [last])). rewrite take_ge; [done|].
      rewrite !length_app, length_fmap. simpl. lia.
    + intros ->. split; [done|]. rewrite (Hok2 eq_refl). by rewrite fmap_app.
  - rewrite <- take_planned in Hv by done.
    destruct r as [a|e|w|]; try done; eexists _, _, evs1;
      (split; [reflexivity|]); (split; [done|]); (split; [done|]);
      (split; [by exists k|done]).
Qed.

(** Along a chain the heights decrease strictly, so no tipset is met twice. *)
Lemma chain_decreasing k c l :
  chain api k c l →
  ∀ i j a b, l !! i = Some a → l !! j = Some b → (i < j)%nat →
             types.Height b < types.Height a.
Proof.
  induction 1 as [c Hk | c p l Hk Hget Hlt Hch IH]; intros i j a b Hi Hj Hij.
  - destruct i, j; simpl in *; try lia; by destruct j.
  - assert (∀ j b, l !! j = Some b → types.Height b ≤ types.Height p) as Hle.
    { intros [|j'] b' Hb.
      - inversion Hch; subst; simpl in Hb; injection Hb as <-; lia.
      - assert (types.Height b' < types.Height p); [|lia].
        apply (IH 0%nat (S j') p b'); [|done|lia].
        by inversion Hch. }
    destruct j as [|j]; [lia|]. destruct i as [|i]; simpl in *.
    + injection Hi as <-. specialize (Hle _ _ Hj). lia.
    + apply (IH i j); [done..|lia].
Qed.

End RangeFacts.

(** ** References and ranges *)

Lemma rev_app_rev_app (a b c : string) :
  String.rev_app (String.rev_app a b) c = String.rev_app b (a +:+ c).
Proof.
  revert b c. induction a as [|x a IH]; intros b c; [done|].
  change (String x a +:+ c) with (String x (a +:+ c)). simpl. by rewrite IH.
Qed.

Lemma append_empty_r (a : string) : a +:+ "" = a.
Proof.
  induction a as [|x a IH]; [done|].
  change (String x a +:+ "") with (String x (a +:+ "")). by rewrite IH.
Qed.

Lemma rev_rev_app (a : string) : String.rev (String.rev_app a "") = a.
Proof. unfold String.rev. rewrite rev_app_rev_app. apply append_empty_r. Qed.

Lemma prefix_dots_other c s :
  c ≠ "."%char → String.prefix ".." (String c s) = false.
Proof.
  intros Hc.
  change (String.prefix ".." (String c s))
    with (if Ascii.ascii_dec "." c then String.prefix "." s else false).
  by destruct (Ascii.ascii_dec "." c) as [<-|].
Qed.

Lemma split_go_nodots a cur :
  nodots a = true → split_go ".." 0 cur a = [String.rev (String.rev_app a cur)].
Proof.
  revert cur. induction a as [|c a IH]; intros cur Hn; [done|].
  simpl in Hn. apply andb_true_iff in Hn as [Hc Ha].
  apply negb_true_iff, bool_decide_eq_false in Hc.
  cbn [split_go]. rewrite prefix_dots_other by done. by rewrite IH.
Qed.

Lemma split_go_range a b cur :
  nodots a = true →
  split_go ".." 0 cur (a +:+ ".." +:+ b)
  = String.rev (String.rev_app a cur) :: split_go ".." 0 "" b.
Proof.
  revert cur. induction a as [|c a IH]; intros cur Hn; [by destruct b|].
  simpl in Hn. apply andb_true_iff in Hn as [Hc Ha].
  apply negb_true_iff, bool_decide_eq_false in Hc.
  change (String c a +:+ ".." +:+ b) with (String c (a +:+ ".." +:+ b)).
  cbn [split_go]. rewrite prefix_dots_other by done. by rewrite IH.
Qed.

Lemma Split_single a : nodots a = true → Split a ".." = [a].
Proof. intros Hn. unfold Split. by rewrite split_go_nodots, rev_rev_app. Qed.

Lemma Split_range a b :
  nodots a = true → nodots b = true → Split (a +:+ ".." +:+ b) ".." = [a; b].
Proof.
  intros Ha Hb. unfold Split.
  by rewrite split_go_range, split_go_nodots, !rev_rev_app.
Qed.

Section RangeClaims.
Variable api : FullNode.
Variable eng : Engine.
Variable ar : Archive.
Variable os : OS.
Variable extractFlags_retain : string.

(** When the lookup of a parent fails during a range extraction, the
    extraction does not complete, and no tipset is extracted after the
    failure: the visits are an initial part of the tipsets walked before
    it, each at its [epoch-<height>] path.  The error of the lookup is
    returned only when the node handed back a tipset with it: the message
    is formatted from the cursor the failed call has just overwritten. *)
Lemma extractTipsetRange_parent_failure left right dir p e l n (s : State (FS os)) :
  broken api (types.Key left) p e right l →
  (length l ≤ n)%nat →
  ∃ r s' evs,
    extractTipsetRange api eng ar os extractFlags_retain n (Some left) (Some right) dir s
      = (r, s') ∧
    trace s' = trace s ++ evs ∧
    match r with
    | Return err =>
        err = Error "failed to extract tipset"
        ∨ (err = Wrap "failed to get tipset" e ∧ is_Some p)
    | Panic _ => True
    | Val _ | Unfinished => False
    end ∧
    ∃ k, visits evs = take k ((λ c, (c, loopPath os dir c)) <$> l).
Proof.
  intros Hbr Hn. unfold extractTipsetRange. go.
  destruct (walkBack_broken api eng ar os extractFlags_retain left dir p e right l
              Hbr n s Hn) as (r & s1 & evs & -> & Htr & Hab & Hv).
  destruct r as [a|err|w|]; try done; by eexists _, _, evs.
Qed.

(** C2, as the code has it.  For a reference [A] without a dot that
    resolves to a tipset, and a destination that is a directory, or is
    absent and can be created: asked for the range [A..A], the tool calls
    [extractTipset] on the tipset [A] exactly once, as single-key
    extraction of [A] does, and hands [writeVector] the same vector (at
    most one, and exactly one when either extraction returns nil), but not
    under the same path: single-key extraction writes it at the
    destination path, range extraction at [epoch-<height>.json] inside
    the destination. *)
Theorem doExtractTipset_range_of_one A ts dest n (s : State (FS os)) :
  nodots A = true →
  A ≠ "" →
  ParseTipSetRef api A = (Some ts, None) →
  (Stat os (fs s) dest = StatOK true
   ∨ (Stat os (fs s) dest = StatNotExist ∧ (MkdirAll os (fs s) dest).2 = None)) →
  let single :=
    doExtractTipset api eng ar os extractFlags_retain n
      {| retain := "accessed-cids"; tsk := A; file := dest |} s in
  let range :=
    doExtractTipset api eng ar os extractFlags_retain (S n)
      {| retain := "accessed-cids"; tsk := A +:+ ".." +:+ A; file := dest |} s in
  let inside := Join os dest ("epoch-" +:+ FormatInt (types.Height ts) +:+ ".json") in
  ∃ vs,
    (length vs ≤ 1)%nat ∧
    visits (added s single.2) = [(ts, dest)] ∧
    visits (added s range.2) = [(ts, inside)] ∧
    writes (added s single.2) = (λ v, (v, dest)) <$> vs ∧
    writes (added s range.2) = (λ v, (v, inside)) <$> vs ∧
    (single.1 = Val tt → length vs = 1%nat) ∧
    (range.1 = Val tt → length vs = 1%nat).
Proof.
  intros Hnd Hne Hparse Hstat single range inside.
  assert (single = extractTipset api eng ar os extractFlags_retain (Some ts) dest s)
    as Hsingle.
  { unfold single, doExtractTipset. cbn [retain tsk file].
    rewrite bool_decide_false by (by intros H; apply H).
    rewrite bool_decide_false by done.
    rewrite Split_single by done. rewrite Hparse. by go. }
  assert (∃ s1 pre, range = extractTipset api eng ar os extractFlags_retain
                              (Some ts) inside s1
                    ∧ trace s1 = trace s ++ pre ∧ visits pre = [] ∧ writes pre = [])
    as (s1 & pre & Hrange & Htr1 & Hv1 & Hw1).
  { unfold range, doExtractTipset. cbn [retain tsk file].
    rewrite bool_decide_false by (by intros H; apply H).
    rewrite bool_decide_false by (by destruct A).
    rewrite Split_range by done. rewrite Hparse. go.
    destruct Hstat as [-> | [-> Hmk]]; go.
    - unfold extractTipsetRange. cbn [walkBack]. go.
      rewrite bool_decide_false by (by intros H; apply H). go.
      eexists _, []. split; [reflexivity|]. by rewrite app_nil_r.
    - cbn [fs tracing_more]. rewrite Hmk. go.
      unfold extractTipsetRange. cbn [walkBack]. go.
      rewrite bool_decide_false by (by intros H; apply H). go.
      eexists _, [EvMkdirAll dest]. split; [reflexivity|]. done. }
  rewrite Hsingle, Hrange.
  destruct (extractTipset_assemble api eng ar os extractFlags_retain ts dest s)
    as [l1 ->].
  destruct (extractTipset_assemble api eng ar os extractFlags_retain ts inside s1)
    as [l2 ->].
  unfold extracted.
  destruct (assemble api eng ar ts) as [v|e|w|]; cbn [fst snd].
  - exists [v].
    rewrite (added_app s _ [EvExtractTipset ts dest; EvWriteVector v dest]) by done.
    rewrite (added_app s _ (pre ++ [EvExtractTipset ts inside; EvWriteVector v inside]))
      by (cbn [trace]; by rewrite Htr1, app_assoc).
    rewrite visits_app, writes_app, Hv1, Hw1. by repeat split.
  - exists [].
    rewrite (added_app s _ [EvExtractTipset ts dest]) by done.
    rewrite (added_app s _ (pre ++ [EvExtractTipset ts inside]))
      by (cbn [trace logging tracing_more]; by rewrite Htr1, app_assoc).
    rewrite visits_app, writes_app, Hv1, Hw1. repeat split; try done; simpl; lia.
  - exists [].
    rewrite (added_app s _ [EvExtractTipset ts dest]) by done.
    rewrite (added_app s _ (pre ++ [EvExtractTipset ts inside]))
      by (cbn [trace logging tracing_more]; by rewrite Htr1, app_assoc).
    rewrite visits_app, writes_app, Hv1, Hw1. repeat split; try done; simpl; lia.
  - exists [].
    rewrite (added_app s _ [EvExtractTipset ts dest]) by done.
    rewrite (added_app s _ (pre ++ [EvExtractTipset ts inside]))
      by (cbn [trace logging tracing_more]; by rewrite Htr1, app_assoc).
    rewrite visits_app, writes_app, Hv1, Hw1. repeat split; try done; simpl; lia.
Qed.

End RangeClaims.

(** On the chain of [demo], the range from the tipset at height 7 to the
    tipset at height 11 is such a walk: the node does not have the parent
    of the tipset at height 10. *)
Example range_lost_broken :
  broken demo.api (types.Key demo.t7) None (Error "tipset not found") demo.t11
    [demo.t11; demo.t10].
Proof.
  apply broken_later with demo.t10; [vm_compute; congruence | reflexivity |].
  apply broken_here; [vm_compute; congruence | reflexivity].
Qed.

(** C7, on that range.  The lookup of the parent of the tipset at height
    10 returns a nil tipset and the error "tipset not found"; the range
    extraction does not return that error, nor any other one: it panics
    on a nil dereference, because the error message is formatted from the
    cursor that the failed call has just overwritten with nil.  The two
    tipsets walked before the failure were extracted and written, and
    nothing after. *)
Theorem extractTipsetRange_lookup_error_panics :
  tvx.ChainGetTipSet demo.api (types.Parents demo.t10)
    = (None, Some (Error "tipset not found"))
  ∧ demo.range_lost.1 = Panic "invalid memory address or nil pointer dereference"
  ∧ demo.range_lost.1
    ≠ Return (Wrap "failed to get tipset" (Error "tipset not found"))
  ∧ visits (added demo.start demo.range_lost.2)
    = [(demo.t11, "vectors/epoch-11"); (demo.t10, "vectors/epoch-10")]
  ∧ snd <$> writes (added demo.start demo.range_lost.2)
    = ["vectors/epoch-11"; "vectors/epoch-10"].
Proof. repeat split; vm_compute; congruence. Qed.

(** C1, on the chain of heights 12, 11, 10 walked from 12 back to 10: the
    three tipsets are visited once each, highest first; the two above the
    left end are written at [epoch-<height>], the left end is written at
    [epoch-<height>.json]. *)
Theorem extractTipsetRange_left_path :
  demo.range12.1 = Val tt
  ∧ visits (trace demo.range12.2)
    = [ (demo.t12, "vectors/epoch-12"); (demo.t11, "vectors/epoch-11");
        (demo.t10, "vectors/epoch-10.json") ]
  ∧ snd <$> writes (trace demo.range12.2)
    = [ "vectors/epoch-12"; "vectors/epoch-11"; "vectors/epoch-10.json" ]
  ∧ tvx.Join demo.os "vectors" ("epoch-" +:+ FormatInt (types.Height demo.t10))
    ≠ "vectors/epoch-10.json".
Proof. repeat split; vm_compute; congruence. Qed.

(** The range of that run is a valid one, so [extractTipsetRange_visits]
    applies to it. *)
Example range12_valid :
  chain demo.api (types.Key demo.t10) demo.t12 [demo.t12; demo.t11; demo.t10].
Proof.
  apply chain_step with demo.t11; [vm_compute; congruence | reflexivity | reflexivity |].
  apply chain_step with demo.t10; [vm_compute; congruence | reflexivity | reflexivity |].
  by apply chain_end.
Qed.

(** C2 fails as stated: single-key extraction of the tipset at height 10
    and extraction of the range from it to itself, into the same
    destination, do not write at the same path. *)
Lemma range_of_one_not_single :
  demo.single10.1 = Val tt ∧ demo.range10.1 = Val tt
  ∧ snd <$> writes (trace demo.single10.2) = ["out"]
  ∧ snd <$> writes (trace demo.range10.2) = ["out/epoch-10.json"]
  ∧ writes (trace demo.single10.2) ≠ writes (trace demo.range10.2).
Proof. repeat split; vm_compute; congruence. Qed.

Lemma doExtractTipset_range_of_one_witness :
  ∃ v, writes (added demo.start demo.single10.2) = [(v, "out")]
       ∧ writes (added demo.start demo.range10.2) = [(v, "out/epoch-10.json")].
Proof.
  destruct (doExtractTipset_range_of_one demo.api demo.eng demo.ar demo.os
              "accessed-cids" "b10" demo.t10 "out" 1 demo.start)
    as (vs & _ & _ & _ & Hw1 & Hw2 & Hlen & _).
  - reflexivity.
  - discriminate.
  - reflexivity.
  - right. split; reflexivity.
  - specialize (Hlen ltac:(vm_compute; reflexivity)).
    destruct vs as [|v [|? ?]]; try discriminate.
    exists v. split; [exact Hw1 | exact Hw2].
Defined.

(** ** [executeTestVector] and [execVectorDir] *)

Import obs_replay.

Section ExecFacts.
Variable eng : Engine.
Variable os : OS.

Abbreviation St := (State (FS os)).

Lemma later_nil (s : St) : later [] [] s = s.
Proof. destruct s; unfold later; simpl. by rewrite !app_nil_r. Qed.

Lemma later_later l1 e1 l2 e2 (s : St) :
  later l2 e2 (later l1 e1 s) = later (l1 ++ l2) (e1 ++ e2) s.
Proof. unfold later; simpl. by rewrite !app_assoc. Qed.

Lemma logging_later l (s : St) : logging l s = later l [] s.
Proof. unfold logging, later. by rewrite app_nil_r. Qed.

Lemma tracing_later e (s : St) : tracing_more e s = later [] e s.
Proof. unfold tracing_more, later. by rewrite app_nil_r. Qed.

Lemma for_range_Println lines (s : St) :
  ∃ l, for_range lines Println s = (Val tt, later l [] s).
Proof.
  revert s. induction lines as [|x lines IH]; intros s; cbn [for_range].
  - exists []. by rewrite later_nil.
  - go. destruct (IH (logging ((λ w, (w, x)) <$> logOutput s) s)) as [l ->].
    rewrite logging_later, later_later. by eexists.
Qed.

Lemma reportVariant_eq run v rest (s : St) :
  ∃ l, reportVariant os run v rest s
       = rest (conformance.reporter run) (conformance.rerr run) (conformance.diffs run)
           (later l [] s).
Proof.
  unfold reportVariant. go.
  destruct (for_range_Println (conformance.output run) s) as [l ->].
  destruct (conformance.Failed _); go; rewrite logging_later, later_later;
    by eexists.
Qed.

Lemma runVariants_message r tv vs err diffs (s : St) :
  schema.Class tv = "message" →
  ∃ l, runVariants eng os r tv vs err diffs s
       = (Val (replayAll (ExecuteMessageVector eng) r tv vs err diffs),
          later l (EvExecuteMessageVector tv <$> vs) s).
Proof.
  intros Hc. revert r err diffs s.
  induction vs as [|v vs IH]; intros r err diffs s; cbn [runVariants replayAll].
  { exists []. by rewrite later_nil. }
  rewrite Hc. cbn [bool_decide decide_rel]. rewrite bool_decide_true by done.
  go. rewrite tracing_later.
  match goal with
  | |- context [reportVariant _ ?run ?v ?rest ?s1] =>
      destruct (reportVariant_eq run v rest s1) as [l1 ->]
  end.
  rewrite later_later.
  match goal with
  | |- context [runVariants _ _ ?r1 _ _ ?e1 ?d1 ?s1] =>
      destruct (IH r1 e1 d1 s1) as [l2 ->]
  end.
  rewrite later_later. by eexists.
Qed.

Lemma runVariants_tipset r tv vs err diffs (s : St) :
  schema.Class tv = "tipset" →
  ∃ l, runVariants eng os r tv vs err diffs s
       = (Val (replayAll (ExecuteTipsetVector eng) r tv vs err diffs),
          later l (EvExecuteTipsetVector tv <$> vs) s).
Proof.
  intros Hc. revert r err diffs s.
  induction vs as [|v vs IH]; intros r err diffs s; cbn [runVariants replayAll].
  { exists []. by rewrite later_nil. }
  rewrite Hc. rewrite bool_decide_false by done. rewrite bool_decide_true by done.
  go. rewrite tracing_later.
  match goal with
  | |- context [reportVariant _ ?run ?v ?rest ?s1] =>
      destruct (reportVariant_eq run v rest s1) as [l1 ->]
  end.
  rewrite later_later.
  match goal with
  | |- context [runVariants _ _ ?r1 _ _ ?e1 ?d1 ?s1] =>
      destruct (IH r1 e1 d1 s1) as [l2 ->]
  end.
  rewrite later_later. by eexists.
Qed.

Lemma runVariants_unsupported r tv vs err diffs (s : St) :
  schema.Class tv ≠ "message" → schema.Class tv ≠ "tipset" →
  runVariants eng os r tv vs err diffs s
  = (Val match vs with
         | [] => (r, (err, diffs))
         | _ :: _ =>
             (r, (Some (Error ("test vector class " +:+ schema.Class tv
                               +:+ " not supported")), []))
         end, s).
Proof.
  intros H1 H2. destruct vs as [|v vs]; cbn [runVariants]; [done|].
  by rewrite !bool_decide_false by done.
Qed.

Lemma replayAll_snoc execute r tv vs v err diffs :
  replayAll execute r tv (vs ++ [v]) err diffs
  = let run := execute (replayAll execute r tv vs err diffs).1 tv v in
    (conformance.reporter run, (conformance.rerr run, conformance.diffs run)).
Proof.
  revert r err diffs. induction vs as [|x vs IH]; intros r err diffs; [done|].
  cbn [app replayAll]. by rewrite IH.
Qed.

Lemma dispatched_message tv vs :
  dispatched (EvExecuteMessageVector tv <$> vs) = (λ v, (true, tv, v)) <$> vs.
Proof. induction vs as [|v vs IH]; [done|]. cbn. by f_equal. Qed.

Lemma dispatched_tipset tv vs :
  dispatched (EvExecuteTipsetVector tv <$> vs) = (λ v, (false, tv, v)) <$> vs.
Proof. induction vs as [|v vs IH]; [done|]. cbn. by f_equal. Qed.

Lemma added_later l evs (s : St) : added s (later l evs s) = evs.
Proof. by apply added_app. Qed.

Lemma added_refl (s : St) : added s s = [].
Proof. apply added_app. by rewrite app_nil_r. Qed.

(** The log, line by line. *)
Lemma said_cons ws x lines :
  said ws (x :: lines) = ((λ w, (w, x)) <$> ws) ++ said ws lines.
Proof. reflexivity. Qed.

Lemma said_app ws l1 l2 : said ws (l1 ++ l2) = said ws l1 ++ said ws l2.
Proof. unfold said. apply bind_app. Qed.

Lemma said_one ws x : said ws [x] = (λ w, (w, x)) <$> ws.
Proof. rewrite said_cons. apply app_nil_r. Qed.

Lemma for_range_Println_said lines (s : St) :
  for_range lines Println s = (Val tt, later (said (logOutput s) lines) [] s).
Proof.
  revert s. induction lines as [|x lines IH]; intros s; cbn [for_range].
  - by rewrite later_nil.
  - go. rewrite IH. cbn [logOutput logging].
    by rewrite logging_later, later_later, said_cons.
Qed.

Lemma reportVariant_said run v rest (s : St) :
  reportVariant os run v rest s
  = rest (conformance.reporter run) (conformance.rerr run) (conformance.diffs run)
      (later (said (logOutput s) (conformance.output run ++ [verdict run v])) [] s).
Proof.
  unfold reportVariant, verdict. go. rewrite for_range_Println_said.
  destruct (conformance.Failed _); go; cbn [logOutput later];
    by rewrite logging_later, later_later, said_app, said_one.
Qed.

Lemma runVariants_message_said r tv vs err diffs (s : St) :
  schema.Class tv = "message" →
  runVariants eng os r tv vs err diffs s
  = (Val (replayAll (ExecuteMessageVector eng) r tv vs err diffs),
     later (said (logOutput s) (replayLines (ExecuteMessageVector eng) r tv vs))
       (EvExecuteMessageVector tv <$> vs) s).
Proof.
  intros Hc. revert r err diffs s.
  induction vs as [|v vs IH]; intros r err diffs s;
    cbn [runVariants replayAll replayLines].
  { by rewrite later_nil. }
  rewrite Hc. rewrite bool_decide_true by done.
  go. rewrite tracing_later, reportVariant_said, later_later, IH, later_later.
  cbn [logOutput later app]. rewrite <- said_app, <- app_assoc. reflexivity.
Qed.

Lemma runVariants_tipset_said r tv vs err diffs (s : St) :
  schema.Class tv = "tipset" →
  runVariants eng os r tv vs err diffs s
  = (Val (replayAll (ExecuteTipsetVector eng) r tv vs err diffs),
     later (said (logOutput s) (replayLines (ExecuteTipsetVector eng) r tv vs))
       (EvExecuteTipsetVector tv <$> vs) s).
Proof.
  intros Hc. revert r err diffs s.
  induction vs as [|v vs IH]; intros r err diffs s;
    cbn [runVariants replayAll replayLines].
  { by rewrite later_nil. }
  rewrite Hc. rewrite bool_decide_false by done. rewrite bool_decide_true by done.
  go. rewrite tracing_later, reportVariant_said, later_later, IH, later_later.
  cbn [logOutput later app]. rewrite <- said_app, <- app_assoc. reflexivity.
Qed.





End ExecFacts.

Section ExecClaims.
Variable eng : Engine.
Variable os : OS.

Abbreviation St := (State (FS os)).

Lemma executeTestVector_eq r tv meta pre (s : St) :
  schema.Meta tv = Some meta → schema.Pre tv = Some pre →
  ∃ l, executeTestVector eng os r tv s
       = runVariants eng os r tv (schema.Variants pre) None [] (later l [] s).
Proof.
  intros Hm Hp. unfold executeTestVector. rewrite Hm, Hp. go.
  rewrite logging_later. by eexists.
Qed.

(** C5, as the code has it.  A vector of class "message" has every
    declared variant executed by [ExecuteMessageVector], in order, each on
    the reporter its predecessor left, whatever the earlier executions
    returned; likewise "tipset" and [ExecuteTipsetVector].  For any other
    class nothing is executed, and the error "class not supported" is
    returned when the vector declares a variant; with no variant declared
    the returned error is nil. *)
Theorem executeTestVector_dispatch r tv meta pre (s : St) :
  schema.Meta tv = Some meta →
  schema.Pre tv = Some pre →
  let out := executeTestVector eng os r tv s in
  (schema.Class tv = "message" →
     dispatched (added s out.2) = (λ v, (true, tv, v)) <$> schema.Variants pre ∧
     out.1 = Val (replayAll (ExecuteMessageVector eng) r tv (schema.Variants pre) None []))
  ∧ (schema.Class tv = "tipset" →
     dispatched (added s out.2) = (λ v, (false, tv, v)) <$> schema.Variants pre ∧
     out.1 = Val (replayAll (ExecuteTipsetVector eng) r tv (schema.Variants pre) None []))
  ∧ (schema.Class tv ≠ "message" → schema.Class tv ≠ "tipset" →
     dispatched (added s out.2) = [] ∧
     out.1 = Val (r, (match schema.Variants pre with
                      | [] => None
                      | _ :: _ =>
                          Some (Error ("test vector class " +:+ schema.Class tv
                                       +:+ " not supported"))
                      end, []))).
Proof.
  intros Hm Hp out. subst out.
  destruct (executeTestVector_eq r tv meta pre s Hm Hp) as [l ->].
  split; [|split].
  - intros Hc.
    destruct (runVariants_message eng os r tv (schema.Variants pre) None []
                (later l [] s) Hc) as [l' ->].
    cbn [fst snd]. rewrite later_later, added_later. cbn [app].
    by rewrite dispatched_message.
  - intros Hc.
    destruct (runVariants_tipset eng os r tv (schema.Variants pre) None []
                (later l [] s) Hc) as [l' ->].
    cbn [fst snd]. rewrite later_later, added_later. cbn [app].
    by rewrite dispatched_tipset.
  - intros H1 H2. rewrite runVariants_unsupported by done.
    cbn [fst snd]. rewrite added_later. split; [done|].
    by destruct (schema.Variants pre).
Qed.

(** C9, as the code has it.  For a vector of a supported class that
    carries its metadata and preconditions, [executeTestVector] returns
    the error and the diffs of the execution of the last declared variant
    alone: what the earlier executions returned is dropped, only the
    reporter they left is passed on, and of every execution the log keeps
    the lines it printed and its verdict.  With no declared variant it
    executes nothing and returns a nil error and nil diffs. *)
Theorem executeTestVector_last_variant r tv meta pre execute (s : St) :
  schema.Meta tv = Some meta →
  schema.Pre tv = Some pre →
  (schema.Class tv = "message" ∧ execute = ExecuteMessageVector eng
   ∨ schema.Class tv = "tipset" ∧ execute = ExecuteTipsetVector eng) →
  let out := executeTestVector eng os r tv s in
  (schema.Variants pre = [] →
     out.1 = Val (r, (None, [])) ∧ dispatched (added s out.2) = [])
  ∧ (∀ vs v, schema.Variants pre = vs ++ [v] →
       let before := replayAll execute r tv vs None [] in
       let last := execute before.1 tv v in
       out.1 = Val (conformance.reporter last,
                    (conformance.rerr last, conformance.diffs last))
       ∧ length (dispatched (added s out.2)) = S (length vs))
  ∧ logged out.2
    = logged s
      ++ said (logOutput s)
           (("executing test vector: " +:+ schema.MetaID meta)
              :: replayLines execute r tv (schema.Variants pre)).
Proof.
  intros Hm Hp Hc out. subst out.
  assert (∃ evs,
            executeTestVector eng os r tv s
            = (Val (replayAll execute r tv (schema.Variants pre) None []),
               later (said (logOutput s)
                        (("executing test vector: " +:+ schema.MetaID meta)
                           :: replayLines execute r tv (schema.Variants pre)))
                 evs s)
            ∧ length (dispatched evs) = length (schema.Variants pre)) as (evs & -> & Hd).
  { unfold executeTestVector. rewrite Hm, Hp. go. rewrite logging_later.
    destruct Hc as [[Hc ->] | [Hc ->]].
    - rewrite runVariants_message_said, later_later by done.
      cbn [logOutput later app]. eexists. split; [by rewrite said_cons|].
      by rewrite dispatched_message, length_fmap.
    - rewrite runVariants_tipset_said, later_later by done.
      cbn [logOutput later app]. eexists. split; [by rewrite said_cons|].
      by rewrite dispatched_tipset, length_fmap. }
  cbn [fst snd]. rewrite added_later.
  split; [|split].
  - intros Hv. rewrite Hv in *. cbn [replayAll]. split; [done|].
    by destruct (dispatched evs).
  - intros vs v Hv. rewrite Hv in *. rewrite replayAll_snoc. cbn zeta.
    split; [done|]. rewrite Hd, length_app. simpl. lia.
  - reflexivity.
Qed.








End ExecClaims.


(** C5 fails as stated: a vector whose class is neither "message" nor
    "tipset" and that declares no variant is replayed without error; and
    of a vector of class "message" without a [_meta] block no variant is
    dispatched: the replay panics on the nil dereference of its first
    statement. *)
Lemma unsupported_class_without_variants :
  schema.Class (demo.messageVector "block" []) ≠ "message"
  ∧ schema.Class (demo.messageVector "block" []) ≠ "tipset"
  ∧ demo.replayUnknown.1 = Val (conformance.newLogReporter, (None, []))
  ∧ demo_replay.replayBareTwo.1
    = Panic "invalid memory address or nil pointer dereference"
  ∧ dispatched (trace demo_replay.replayBareTwo.2) = [].
Proof. repeat split; vm_compute; congruence. Qed.

Lemma executeTestVector_dispatch_witness :
  dispatched (added demo.start demo.replayTwo.2)
  = [ (false, demo.twoVariants, demo.variant "broken" (-1));
      (false, demo.twoVariants, demo.variant "genesis" 2) ].
Proof.
  destruct (executeTestVector_dispatch demo.eng demo.os conformance.newLogReporter
              demo.twoVariants {| schema.MetaID := "v1"; schema.Gen := [] |}
              {| schema.Variants := [demo.variant "broken" (-1); demo.variant "genesis" 2];
                 schema.PreBaseFee := 100; schema.PreStateTree := None |}
              demo.start)
    as (_ & Htipset & _).
  - reflexivity.
  - reflexivity.
  - destruct Htipset as [Hd _]; [reflexivity|]. exact Hd.
Defined.

(** C9 fails as stated: a vector of class "message" that declares no
    variant and carries no [_meta] block is not replayed to a nil error
    and nil diffs: the replay panics on the nil dereference of its first
    statement. *)
Lemma supported_class_without_meta_panics :
  schema.Class (demo_replay.bare "message" []) = "message"
  ∧ schema.Variants <$> schema.Pre (demo_replay.bare "message" []) = Some []
  ∧ demo_replay.replayBare.1
    = Panic "invalid memory address or nil pointer dereference"
  ∧ demo_replay.replayBare.1 ≠ Val (conformance.newLogReporter, (None, [])).
Proof. repeat split; vm_compute; congruence. Qed.

Lemma executeTestVector_last_variant_witness :
  demo.replayTwo.1 = Val ({| conformance.failed := true |}, (None, []))
  ∧ snd <$> logged demo.replayTwo.2
    = [ "executing test vector: v1"; "state root mismatch";
        "test vector failed for variant broken"; "applied tipset";
        "test vector failed for variant genesis" ].
Proof.
  destruct (executeTestVector_last_variant demo.eng demo.os conformance.newLogReporter
              demo.twoVariants {| schema.MetaID := "v1"; schema.Gen := [] |}
              {| schema.Variants := [demo.variant "broken" (-1); demo.variant "genesis" 2];
                 schema.PreBaseFee := 100; schema.PreStateTree := None |}
              (ExecuteTipsetVector demo.eng) demo.start)
    as (_ & Hlast & Hlog).
  - reflexivity.
  - reflexivity.
  - right. split; reflexivity.
  - destruct (Hlast [demo.variant "broken" (-1)] (demo.variant "genesis" 2) eq_refl)
      as [Hout _].
    split; [exact Hout|].
    exact (eq_trans (f_equal (fmap snd) Hlog) eq_refl).
Defined.

(** The broken variant alone does return an error and a diff. *)
Example broken_variant_alone :
  (executeTestVector demo.eng demo.os conformance.newLogReporter
     (demo.messageVector "tipset" [demo.variant "broken" (-1)]) demo.start).1
  = Val ({| conformance.failed := true |},
         (Some (Error "tipset replay failed"), ["root: expected broken"])).
Proof. vm_compute. reflexivity. Qed.



(** A file that decodes to a vector without a [_meta] block is outside
    this: its replay panics, and the files after it are not opened. *)
Example file_without_meta_panics :
  demo_replay.replayDirBare.1
  = Panic "invalid memory address or nil pointer dereference"
  ∧ opened (trace demo_replay.replayDirBare.2) = ["in/a.json"; "in/b.json"].
Proof. split; vm_compute; reflexivity. Qed.

(** The second file of the directory does not decode. *)
Example second_file_malformed :
  (execVectorFile demo.eng demo.os conformance.newLogReporter "in/b.json" demo.start).1
  = Val (conformance.newLogReporter,
         (Some (Wrap "failed to decode test vector" (Error "invalid character")), [])).
Proof. vm_compute. reflexivity. Qed.

(** ** [GetCids] *)

Section GetCidsClaims.
Variable ReplicaCommitmentV1ToCID : bytes → Cid * option error.
Variable DataCommitmentV1ToCID : bytes → Cid * option error.

(** C10. When the conversion of CommR succeeds and the conversion of
    CommD fails, [GetCids] returns the zero [SectorCids] and a nil error:
    the error it returns is that of the CommR conversion, which is nil. *)
Theorem GetCids_drops_CommD_error resp commR commD e :
  ReplicaCommitmentV1ToCID (sectorstorage.CommR resp) = (commR, None) →
  DataCommitmentV1ToCID (sectorstorage.CommD resp) = (commD, Some e) →
  sectorstorage.GetCids ReplicaCommitmentV1ToCID DataCommitmentV1ToCID resp
  = (sectorstorage.zeroSectorCids, None).
Proof. intros HR HD. unfold sectorstorage.GetCids. by rewrite HR, HD. Qed.

End GetCidsClaims.

Lemma GetCids_drops_CommD_error_witness :
  sectorstorage.GetCids (sectorstorage.commitment_to_cid "sealed:")
    (sectorstorage.commitment_to_cid "unsealed:") demo.shortCommD
  = (sectorstorage.zeroSectorCids, None).
Proof.
  apply (GetCids_drops_CommD_error _ _ demo.shortCommD
           ("sealed:" +:+ sectorstorage.hex_of (replicate 32 Byte.x01)) ""
           (Error "commitments must be 32 bytes long")).
  - reflexivity.
  - reflexivity.
Defined.

(** ** The string functions on examples *)

Example split_range : Split "a,b..c" ".." = ["a,b"; "c"].
Proof. reflexivity. Qed.
Example split_three : Split "a..b..c" ".." = ["a"; "b"; "c"].
Proof. reflexivity. Qed.
Example split_dots : Split "a...b" ".." = ["a"; ".b"].
Proof. reflexivity. Qed.
Example split_trailing : Split "a.." ".." = ["a"; ""].
Proof. reflexivity. Qed.
Example ext_json : Ext "vectors/x.y/a.json" = ".json".
Proof. reflexivity. Qed.
Example ext_none : Ext "vectors/x.y/a" = "".
Proof. reflexivity. Qed.
Example base_json : Base "vectors/x.y/a.json" = "a.json".
Proof. reflexivity. Qed.
Example base_slashes : Base "///" = "/".
Proof. reflexivity. Qed.
Example outfile_two_dots : tvx.outfile "v/a.tar.json" = "a.tar.out".
Proof. reflexivity. Qed.

(** * Further properties *)

(** ** dispatch.go: byte arrays, piece infos, requests *)

Lemma Inner_shape (inp : bytes) :
  length (dispatch.Inner (dispatch.To32ByteArray inp)) = 32%nat
  ∧ take (length inp) (dispatch.Inner (dispatch.To32ByteArray inp)) = take 32 inp
  ∧ drop (length inp) (dispatch.Inner (dispatch.To32ByteArray inp))
    = replicate (32 - length inp) Byte.x00.
Proof.
  unfold dispatch.To32ByteArray. cbn [dispatch.Inner].
  destruct (decide (length inp ≤ 32)%nat) as [Hle|Hgt].
  - rewrite (take_ge inp 32) by done.
    rewrite length_app, length_replicate, take_app_length, drop_app_length.
    split; [lia|done].
  - replace (32 - length inp)%nat with 0%nat by lia. cbn [replicate].
    rewrite app_nil_r, length_take.
    split; [lia|]. split.
    + rewrite take_take. f_equal. lia.
    + apply drop_ge. rewrite length_take. lia.
Qed.


(** X1. [To32ByteArray] always yields 32 bytes, and they start with the
    input, cut at 32 bytes: a longer input is truncated without an error,
    a shorter one is padded. *)
Theorem To32ByteArray_length_prefix (inp : bytes) :
  length (dispatch.Inner (dispatch.To32ByteArray inp)) = 32%nat
  ∧ take (length inp) (dispatch.Inner (dispatch.To32ByteArray inp)) = take 32 inp
  ∧ drop (length inp) (dispatch.Inner (dispatch.To32ByteArray inp))
    = replicate (32 - length inp) Byte.x00.
Proof. apply Inner_shape. Qed.

Lemma To32ByteArray_exact (inp : bytes) :
  length inp = 32%nat → dispatch.Inner (dispatch.To32ByteArray inp) = inp.
Proof.
  intros H. unfold dispatch.To32ByteArray. cbn [dispatch.Inner].
  rewrite H, take_ge by lia. cbn. apply app_nil_r.
Qed.

Section RequestFacts.
Variable deps : dispatch.Deps.

Lemma to32ByteCommP_ok c a :
  dispatch.to32ByteCommP deps c = (a, None) →
  (dispatch.CIDToPieceCommitmentV1 deps c).2 = None
  ∧ a = dispatch.To32ByteArray (dispatch.CIDToPieceCommitmentV1 deps c).1.
Proof.
  unfold dispatch.to32ByteCommP.
  destruct (dispatch.CIDToPieceCommitmentV1 deps c) as [b [e|]]; [done|].
  by intros [= <-].
Qed.

Lemma fillPieceInfos_ok src filled out n :
  dispatch.fillPieceInfos deps src filled = (out, n, None) →
  n = Z.of_nat (length filled + length src)
  ∧ out = filled ++
      ((λ p, {| dispatch.NumBytes := dispatch.Unpadded deps (dispatch.Size p);
                dispatch.CommP :=
                  dispatch.Inner (dispatch.To32ByteArray
                    (dispatch.CIDToPieceCommitmentV1 deps (dispatch.PieceCID p)).1) |})
       <$> src)
  ∧ ∀ p, p ∈ src → (dispatch.CIDToPieceCommitmentV1 deps (dispatch.PieceCID p)).2 = None.
Proof.
  revert filled. induction src as [|p src IH]; intros filled; cbn [dispatch.fillPieceInfos].
  - intros [= <- <-]. rewrite app_nil_r, Nat.add_0_r.
    split; [done|]. split; [done|]. intros p Hp. by apply elem_of_nil in Hp.
  - destruct (dispatch.to32ByteCommP deps (dispatch.PieceCID p)) as [a [e|]] eqn:Hc;
      [done|].
    apply to32ByteCommP_ok in Hc as [Hok ->].
    intros H. apply IH in H as (-> & -> & Hall).
    rewrite length_app. cbn [length]. split; [f_equal; lia|].
    split; [by rewrite <- app_assoc|].
    intros q Hq. apply elem_of_cons in Hq as [-> | Hq]; [done|by apply Hall].
Qed.

(** X2. When [ToFilPublicPieceInfos] succeeds, it returns one entry per
    piece, in the order of the pieces, with the count of the pieces; each
    entry carries the unpadded size of its piece and a commitment of 32
    bytes taken from the piece CID, which converted without error. *)
Theorem ToFilPublicPieceInfos_ok src out n :
  dispatch.ToFilPublicPieceInfos deps src = (out, n, None) →
  n = Z.of_nat (length src)
  ∧ length out = length src
  ∧ ∀ i p, src !! i = Some p →
      ∃ q, out !! i = Some q
           ∧ dispatch.NumBytes q = dispatch.Unpadded deps (dispatch.Size p)
           ∧ length (dispatch.CommP q) = 32%nat
           ∧ ∃ commP, dispatch.CIDToPieceCommitmentV1 deps (dispatch.PieceCID p)
                      = (commP, None)
                      ∧ take (length commP) (dispatch.CommP q) = take 32 commP.
Proof.
  intros H. apply fillPieceInfos_ok in H as (-> & -> & Hall).
  cbn [app length]. split; [done|]. split; [by rewrite length_fmap|].
  intros i p Hi. eexists. split; [by rewrite list_lookup_fmap, Hi|].
  cbn [dispatch.NumBytes dispatch.CommP]. split; [done|].
  split; [apply Inner_shape|].
  specialize (Hall p (list_elem_of_lookup_2 _ _ _ Hi)).
  destruct (dispatch.CIDToPieceCommitmentV1 deps (dispatch.PieceCID p)) as [commP e].
  cbn in Hall. subst e. exists commP. split; [done|].
  apply Inner_shape.
Qed.

Lemma fillPieceInfos_first_failure pre p post filled b e :
  (∀ q, q ∈ pre → (dispatch.CIDToPieceCommitmentV1 deps (dispatch.PieceCID q)).2 = None) →
  dispatch.CIDToPieceCommitmentV1 deps (dispatch.PieceCID p) = (b, Some e) →
  dispatch.fillPieceInfos deps (pre ++ p :: post) filled
  = ([], 0, Some (Wrap "failed to transform sealed CID to CommP" e)).
Proof.
  intros Hpre Hp. revert filled.
  induction pre as [|q pre IH]; intros filled; cbn [app dispatch.fillPieceInfos].
  - unfold dispatch.to32ByteCommP. by rewrite Hp.
  - unfold dispatch.to32ByteCommP at 1.
    pose proof (Hpre q ltac:(by left)) as Hq.
    destruct (dispatch.CIDToPieceCommitmentV1 deps (dispatch.PieceCID q)) as [c e'].
    cbn in Hq. subst e'. apply IH. intros r Hr. apply Hpre. by right.
Qed.

(** X3. When the CID of a piece does not convert, [ToFilPublicPieceInfos]
    returns no entries at all, a count of 0, and the error of the first
    such piece, wrapped; the entries already built for the pieces before
    it are dropped, and the pieces after it are not looked at. *)
Theorem ToFilPublicPieceInfos_first_failure pre p post b e :
  (∀ q, q ∈ pre → (dispatch.CIDToPieceCommitmentV1 deps (dispatch.PieceCID q)).2 = None) →
  dispatch.CIDToPieceCommitmentV1 deps (dispatch.PieceCID p) = (b, Some e) →
  dispatch.ToFilPublicPieceInfos deps (pre ++ p :: post)
  = ([], 0, Some (Wrap "failed to transform sealed CID to CommP" e)).
Proof. intros. by eapply fillPieceInfos_first_failure. Qed.

(** X4. The sum of the piece sizes that the two requests compare with the
    sector size is a [uint64] sum: it is the sum of the unpadded sizes
    modulo 2^64. *)
Theorem sumUnpadded_mod pieces :
  dispatch.sumUnpadded deps pieces
  = (foldr Z.add 0 ((λ p, dispatch.Unpadded deps (dispatch.Size p)) <$> pieces))
      `mod` 2 ^ 64.
Proof.
  unfold dispatch.sumUnpadded.
  assert (∀ acc,
            foldl (λ sum piece, dispatch.u64 (sum + dispatch.Unpadded deps (dispatch.Size piece)))
              (dispatch.u64 acc) pieces
            = dispatch.u64
                (acc + foldr Z.add 0
                         ((λ p, dispatch.Unpadded deps (dispatch.Size p)) <$> pieces))) as H.
  { induction pieces as [|p ps IH]; intros acc; cbn [foldl foldr fmap list_fmap].
    - by rewrite Z.add_0_r.
    - replace (dispatch.u64 (dispatch.u64 acc + dispatch.Unpadded deps (dispatch.Size p)))
        with (dispatch.u64 (acc + dispatch.Unpadded deps (dispatch.Size p)))
        by (unfold dispatch.u64; by rewrite Zplus_mod_idemp_l).
      rewrite IH. f_equal. lia. }
  specialize (H 0). by rewrite Z.add_0_l in H.
Qed.

(** X5. [sendSealPreCommitRequest] returns nil only after it printed a
    request: then the sector size is known, the pieces fill the sector
    exactly (their unpadded sizes sum, modulo 2^64, to the unpadded sector
    size), and the request lists every piece, with their count, a prover
    id of 32 bytes and the number of the sector. *)
Theorem sendSealPreCommitRequest_ok uuid sector ticket pieces printed :
  dispatch.sendSealPreCommitRequest deps uuid sector ticket pieces = (printed, None) →
  ∃ request ssize,
    printed = Some request
    ∧ dispatch.SectorSize deps (dispatch.RefProofType sector) = (ssize, None)
    ∧ dispatch.sumUnpadded deps pieces = dispatch.Unpadded deps ssize
    ∧ dispatch.SealPreCommitParam.PiecesLen request = Z.of_nat (length pieces)
    ∧ length (dispatch.SealPreCommitParam.Pieces request) = length pieces
    ∧ length (dispatch.SealPreCommitParam.ProverID request) = 32%nat
    ∧ dispatch.SealPreCommitParam.SectorNumber request = dispatch.Number sector
    ∧ dispatch.SealPreCommitParam.Ticket request = ticket.
Proof.
  unfold dispatch.sendSealPreCommitRequest.
  destruct (dispatch.SectorSize deps _) as [ssize [e|]] eqn:Hs; [done|].
  case_bool_decide as Hsum; [done|].
  destruct (dispatch.NewIDAddress deps _) as [maddr [e|]]; [done|].
  destruct (dispatch.ToFilPublicPieceInfos deps pieces) as [[out n] [e|]] eqn:Hp; [done|].
  intros [= <-]. apply fillPieceInfos_ok in Hp as (-> & -> & _).
  eexists _, ssize. split; [reflexivity|]. cbn. rewrite length_fmap.
  repeat split; try done. apply Inner_shape.
Qed.

(** X6. Both requests check the sizes before anything else about the
    pieces: when the sector size is known and the pieces do not fill the
    sector, each returns the size error and prints nothing, whatever the
    piece CIDs, the miner address and the sector CIDs are. *)
Theorem requests_size_mismatch uuid sector ticket seed pieces cids ssize :
  dispatch.SectorSize deps (dispatch.RefProofType sector) = (ssize, None) →
  dispatch.sumUnpadded deps pieces ≠ dispatch.Unpadded deps ssize →
  dispatch.sendSealPreCommitRequest deps uuid sector ticket pieces
  = (None, Some (Error "aggregated piece sizes don't match sector size"))
  ∧ dispatch.sendSealCommitRequest deps uuid sector ticket seed pieces cids
    = (None, Some (Error "aggregated piece sizes don't match sector size")).
Proof.
  intros Hs Hne.
  unfold dispatch.sendSealPreCommitRequest, dispatch.sendSealCommitRequest.
  rewrite Hs. by rewrite bool_decide_true by done.
Qed.

(** X7. [sendSealCommitRequest] returns nil only after it printed a
    request whose CommR and CommD are 32 bytes each, converted without
    error from the sealed and the unsealed CID of the sector in this
    order, and whose pieces are all the pieces. *)
Theorem sendSealCommitRequest_ok uuid sector ticket seed pieces cids printed :
  dispatch.sendSealCommitRequest deps uuid sector ticket seed pieces cids = (printed, None) →
  ∃ request commR commD,
    printed = Some request
    ∧ dispatch.CIDToReplicaCommitmentV1 deps (sectorstorage.Sealed cids) = (commR, None)
    ∧ dispatch.CIDToDataCommitmentV1 deps (sectorstorage.Unsealed cids) = (commD, None)
    ∧ dispatch.SealCommitParam.CommR request = dispatch.Inner (dispatch.To32ByteArray commR)
    ∧ dispatch.SealCommitParam.CommD request = dispatch.Inner (dispatch.To32ByteArray commD)
    ∧ length (dispatch.SealCommitParam.CommR request) = 32%nat
    ∧ length (dispatch.SealCommitParam.CommD request) = 32%nat
    ∧ dispatch.SealCommitParam.PiecesLen request = Z.of_nat (length pieces)
    ∧ dispatch.sumUnpadded deps pieces
      = dispatch.Unpadded deps (dispatch.SectorSize deps (dispatch.RefProofType sector)).1.
Proof.
  unfold dispatch.sendSealCommitRequest, dispatch.to32ByteCommR, dispatch.to32ByteCommD.
  destruct (dispatch.SectorSize deps _) as [ssize [e|]] eqn:Hs; [done|].
  case_bool_decide as Hsum; [done|].
  destruct (dispatch.NewIDAddress deps _) as [maddr [e|]]; [done|].
  destruct (dispatch.ToFilPublicPieceInfos deps pieces) as [[out n] [e|]] eqn:Hp; [done|].
  destruct (dispatch.CIDToReplicaCommitmentV1 deps _) as [commR [e|]]; [done|].
  destruct (dispatch.CIDToDataCommitmentV1 deps _) as [commD [e|]]; [done|].
  intros [= <-]. apply fillPieceInfos_ok in Hp as (-> & -> & _).
  eexists _, commR, commD. split; [reflexivity|]. cbn.
  repeat split; try done; apply Inner_shape.
Qed.

(** X8. [GetCids] followed by [to32ByteCommR] and [to32ByteCommD] gives
    back the two commitments of the response, CommR from the sealed CID
    and CommD from the unsealed CID, when the commitments are 32 bytes
    long and the conversions of [commcid] are inverse to each other on
    them. *)
Theorem GetCids_round_trip toR toD resp cR cD :
  length (sectorstorage.CommR resp) = 32%nat →
  length (sectorstorage.CommD resp) = 32%nat →
  toR (sectorstorage.CommR resp) = (cR, None) →
  toD (sectorstorage.CommD resp) = (cD, None) →
  dispatch.CIDToReplicaCommitmentV1 deps cR = (sectorstorage.CommR resp, None) →
  dispatch.CIDToDataCommitmentV1 deps cD = (sectorstorage.CommD resp, None) →
  let cids := (sectorstorage.GetCids toR toD resp).1 in
  (sectorstorage.GetCids toR toD resp).2 = None
  ∧ dispatch.to32ByteCommR deps (sectorstorage.Sealed cids)
    = ({| dispatch.Inner := sectorstorage.CommR resp |}, None)
  ∧ dispatch.to32ByteCommD deps (sectorstorage.Unsealed cids)
    = ({| dispatch.Inner := sectorstorage.CommD resp |}, None).
Proof.
  intros HlR HlD HR HD HbR HbD cids. subst cids.
  unfold sectorstorage.GetCids. rewrite HR, HD. cbn.
  unfold dispatch.to32ByteCommR, dispatch.to32ByteCommD. rewrite HbR, HbD.
  unfold dispatch.To32ByteArray. rewrite HlR, HlD, !take_ge by lia. cbn.
  by rewrite !app_nil_r.
Qed.

End RequestFacts.

Lemma ToFilPublicPieceInfos_ok_witness :
  (dispatch.ToFilPublicPieceInfos demo_dispatch.deps demo_dispatch.halves).1.2 = 2
  ∧ dispatch.NumBytes
      <$> (dispatch.ToFilPublicPieceInfos demo_dispatch.deps demo_dispatch.halves).1.1
    = [1016; 1016].
Proof.
  destruct (dispatch.ToFilPublicPieceInfos demo_dispatch.deps demo_dispatch.halves)
    as [[out n] e] eqn:Hrun.
  assert (e = None) as -> by (vm_compute in Hrun; congruence).
  destruct (ToFilPublicPieceInfos_ok demo_dispatch.deps demo_dispatch.halves out n Hrun)
    as (-> & _ & _).
  vm_compute in Hrun. injection Hrun as <-. split; reflexivity.
Defined.

Lemma ToFilPublicPieceInfos_first_failure_witness :
  dispatch.ToFilPublicPieceInfos demo_dispatch.deps
    ([demo_dispatch.piece 1024 Byte.x41] ++ demo_dispatch.notAPiece
       :: [demo_dispatch.piece 1024 Byte.x42])
  = ([], 0, Some (Wrap "failed to transform sealed CID to CommP"
                    (Error "unexpected commitment kind"))).
Proof.
  apply (ToFilPublicPieceInfos_first_failure demo_dispatch.deps
           [demo_dispatch.piece 1024 Byte.x41] demo_dispatch.notAPiece
           [demo_dispatch.piece 1024 Byte.x42] []).
  - intros q Hq. apply list_elem_of_singleton in Hq as ->. reflexivity.
  - reflexivity.
Defined.

Lemma sendSealPreCommitRequest_ok_witness :
  ∃ request,
    (dispatch.sendSealPreCommitRequest demo_dispatch.deps "uuid-1" demo_dispatch.sector
       [Byte.x09] demo_dispatch.halves).1 = Some request
    ∧ dispatch.SealPreCommitParam.PiecesLen request = 2.
Proof.
  destruct (sendSealPreCommitRequest_ok demo_dispatch.deps "uuid-1" demo_dispatch.sector
              [Byte.x09] demo_dispatch.halves
              (dispatch.sendSealPreCommitRequest demo_dispatch.deps "uuid-1"
                 demo_dispatch.sector [Byte.x09] demo_dispatch.halves).1)
    as (request & ssize & Hp & _ & _ & Hlen & _).
  - vm_compute. reflexivity.
  - exists request. split; [exact Hp | exact Hlen].
Defined.

Lemma requests_size_mismatch_witness :
  dispatch.sendSealPreCommitRequest demo_dispatch.deps "uuid-1" demo_dispatch.sector
    [Byte.x09] [demo_dispatch.notAPiece]
  = (None, Some (Error "aggregated piece sizes don't match sector size")).
Proof.
  apply (requests_size_mismatch demo_dispatch.deps "uuid-1" demo_dispatch.sector
           [Byte.x09] [] [demo_dispatch.notAPiece] sectorstorage.zeroSectorCids 2048).
  - reflexivity.
  - vm_compute. congruence.
Defined.

Lemma sendSealCommitRequest_ok_witness :
  ∃ request,
    (dispatch.sendSealCommitRequest demo_dispatch.deps "uuid-1" demo_dispatch.sector
       [Byte.x09] [Byte.x0a] demo_dispatch.halves
       (sectorstorage.GetCids (sectorstorage.commitment_to_cid "sealed:")
          (sectorstorage.commitment_to_cid "unsealed:") demo_dispatch.sealed32).1).1
    = Some request
    ∧ dispatch.SealCommitParam.CommR request = demo_dispatch.digest Byte.x52
    ∧ dispatch.SealCommitParam.CommD request = demo_dispatch.digest Byte.x44.
Proof.
  destruct (sendSealCommitRequest_ok demo_dispatch.deps "uuid-1" demo_dispatch.sector
              [Byte.x09] [Byte.x0a] demo_dispatch.halves
              (sectorstorage.GetCids (sectorstorage.commitment_to_cid "sealed:")
                 (sectorstorage.commitment_to_cid "unsealed:") demo_dispatch.sealed32).1
              (dispatch.sendSealCommitRequest demo_dispatch.deps "uuid-1"
                 demo_dispatch.sector [Byte.x09] [Byte.x0a] demo_dispatch.halves
                 (sectorstorage.GetCids (sectorstorage.commitment_to_cid "sealed:")
                    (sectorstorage.commitment_to_cid "unsealed:")
                    demo_dispatch.sealed32).1).1)
    as (request & commR & commD & Hp & HR & HD & HcR & HcD & _).
  - vm_compute. reflexivity.
  - exists request. split; [exact Hp|].
    rewrite HcR, HcD.
    vm_compute in HR. injection HR as <-. vm_compute in HD. injection HD as <-.
    split; reflexivity.
Defined.

Lemma GetCids_round_trip_witness :
  dispatch.to32ByteCommR demo_dispatch.deps
    (sectorstorage.Sealed
       (sectorstorage.GetCids (sectorstorage.commitment_to_cid "sealed:")
          (sectorstorage.commitment_to_cid "unsealed:") demo_dispatch.sealed32).1)
  = ({| dispatch.Inner := demo_dispatch.digest Byte.x52 |}, None).
Proof.
  refine (proj1 (proj2 (GetCids_round_trip demo_dispatch.deps
              (sectorstorage.commitment_to_cid "sealed:")
              (sectorstorage.commitment_to_cid "unsealed:") demo_dispatch.sealed32
              ("sealed:" +:+ sectorstorage.hex_of (demo_dispatch.digest Byte.x52))
              ("unsealed:" +:+ sectorstorage.hex_of (demo_dispatch.digest Byte.x44))
              _ _ _ _ _ _)));
    reflexivity.
Defined.

(** ** exec.go: files, directories, streams *)

Import obs_more.

Section ExecMore.
Variable eng : Engine.
Variable os : OS.

Abbreviation St := (State (FS os)).

(** X9. A vector file that cannot be opened or decoded yields an error
    and nil diffs; nothing is executed or logged, and the reporter is
    handed back as it was. *)
Theorem execVectorFile_unreadable r f (s : St) :
  (Open os (fs s) f).2 ≠ None ∨ (Decode os (Open os (fs s) f).1).2 ≠ None →
  ∃ e, execVectorFile eng os r f s = (Val (r, (Some e, [])), tracing_more [EvOpen f] s).
Proof.
  intros H. unfold execVectorFile. go. cbn [fs tracing_more].
  destruct (Open os (fs s) f) as [content [e|]]; cbn [fst snd] in *; [by eexists|].
  destruct (Decode os content) as [tv [e|]]; cbn [fst snd] in *; [by eexists|].
  by destruct H.
Qed.





(** Lines logged while the logger tees to the writers of the state. *)
Abbreviation teed s l := (Forall (λ x : string * string, x.1 ∈ logOutput s) l).








(** X12. Reading a stream stops at the first value that does not decode:
    what follows it in the stream makes no difference, and when the
    vectors before it replay without error, the decoding error is what
    [execVectorsStdin] returns. *)
Theorem execVectors_decode_error r pre tv e rest (s : St) :
  Forall (λ x, x.2 = None ∧ passes eng os x.1) pre →
  (execVectors eng os r (pre ++ (tv, Some e) :: rest) s).1 = Return e
  ∧ execVectors eng os r (pre ++ (tv, Some e) :: rest) s
    = execVectors eng os r (pre ++ [(tv, Some e)]) s.
Proof.
  intros Hpre. revert r s.
  induction Hpre as [|[tv0 e0] pre [He0 Hpass] Hpre IH]; intros r s; [done|].
  cbn in He0, Hpass. subst e0. cbn [app execVectors].
  rewrite !bind_eq.
  destruct (Hpass r s) as (r' & d & s' & ->). go. cbn [fst snd]. apply IH.
Qed.

(** X13. A streamed vector that carries its metadata and preconditions,
    declares at least one variant and is of an unsupported class stops the
    stream: [execVectorsStdin] returns the class error and executes
    nothing, neither for it nor for what follows it on the stream. *)
Theorem execVectors_unsupported_class r tv meta pre rest (s : St) :
  schema.Meta tv = Some meta →
  schema.Pre tv = Some pre →
  schema.Variants pre ≠ [] →
  schema.Class tv ≠ "message" →
  schema.Class tv ≠ "tipset" →
  let out := execVectors eng os r ((tv, None) :: rest) s in
  out.1 = Return (Error ("test vector class " +:+ schema.Class tv +:+ " not supported"))
  ∧ dispatched (added s out.2) = [].
Proof.
  intros Hm Hp Hv H1 H2 out. subst out. cbn [execVectors]. rewrite bind_eq.
  destruct (executeTestVector_eq eng os r tv meta pre s Hm Hp) as [l ->].
  rewrite runVariants_unsupported by done.
  destruct (schema.Variants pre) as [|v vs]; [done|]. go. cbn [fst snd].
  split; [done|]. by rewrite added_later.
Qed.

Section Command.
Variable initialize : St → St * option error.
Variable destroy : St → St.
Variable ensureDir : FS os → string → FS os * option error.

(** X14. Given a directory and no output directory, [runExec] returns an
    error before it creates, opens or executes anything; given a path for
    which [os.Stat] fails, it returns without executing anything either. *)
Theorem runExec_refuses flags stdin (s : St) :
  exec.fallbackBlockstore flags = false →
  exec.file flags ≠ "" →
  (Stat os (fs s) (exec.file flags) = StatOK true ∧ exec.out flags = ""
   ∨ Stat os (fs s) (exec.file flags) = StatNotExist
   ∨ ∃ e, Stat os (fs s) (exec.file flags) = StatError e) →
  ∃ e, exec.runExec eng os initialize destroy ensureDir flags stdin s = (Return e, s)
       ∧ (exec.out flags = "" →
          Stat os (fs s) (exec.file flags) = StatOK true →
          e = Error "no output directory provided").
Proof.
  intros Hfb Hfile Hstat. unfold exec.runExec, exec.runPath. rewrite Hfb.
  rewrite bool_decide_false by done. go.
  destruct Hstat as [[-> Hout] | [-> | [e ->]]].
  - rewrite bool_decide_true by done. eexists. by split.
  - eexists. split; [done|]. intros _ H. discriminate.
  - eexists. split; [done|]. intros _ H. discriminate.
Qed.

End Command.

End ExecMore.

(** ** The tipset command: references, ranges, vectors *)

Section ExtractMore.
Variable api : FullNode.
Variable eng : Engine.
Variable ar : Archive.
Variable os : OS.
Variable extractFlags_retain : string.

Abbreviation St := (State (FS os)).

(** X15. A retention strategy other than "accessed-cids", or an empty
    tipset reference, is refused at once: [doExtractTipset] returns an
    error and leaves the state as it was. *)
Theorem doExtractTipset_refuses n opts (s : St) :
  retain opts ≠ "accessed-cids" ∨ tsk opts = "" →
  ∃ e, doExtractTipset api eng ar os extractFlags_retain n opts s = (Return e, s).
Proof.
  intros H. unfold doExtractTipset.
  case_bool_decide; [by eexists|].
  destruct H as [H|H]; [done|]. rewrite bool_decide_true by done. by eexists.
Qed.

(** X16. A reference with three fields or more between [..] separators
    is refused as unrecognized, and the state is left as it was. *)
Theorem doExtractTipset_unrecognized n opts (s : St) :
  retain opts = "accessed-cids" →
  (3 ≤ length (Split (tsk opts) ".."))%nat →
  doExtractTipset api eng ar os extractFlags_retain n opts s
  = (Return (Error "unrecognized tipset format"), s).
Proof.
  intros Hr Hlen. unfold doExtractTipset.
  rewrite bool_decide_false by (by intros H; apply H).
  case_bool_decide as Hk.
  { rewrite Hk in Hlen. cbn in Hlen. lia. }
  destruct (Split (tsk opts) "..") as [|a [|b [|c l]]]; cbn in Hlen; try lia; done.
Qed.

(** X17. In range mode, a destination that exists and is not a directory
    is refused after both ends were resolved: nothing is created and no
    tipset is extracted. *)
Theorem doExtractTipset_not_a_directory n opts a b (s : St) :
  retain opts = "accessed-cids" →
  Split (tsk opts) ".." = [a; b] →
  (ParseTipSetRef api a).2 = None →
  (ParseTipSetRef api b).2 = None →
  Stat os (fs s) (file opts) = StatOK false →
  doExtractTipset api eng ar os extractFlags_retain n opts s
  = (Return (Error "path is not a directory"), s).
Proof.
  intros Hr Hsp Ha Hb Hst. unfold doExtractTipset.
  rewrite bool_decide_false by (by intros H; apply H).
  case_bool_decide as Hk; [by rewrite Hk in Hsp|].
  rewrite Hsp, Ha, Hb. go. by rewrite Hst.
Qed.

(** X18. When an end of a range, or the single tipset asked for, does not
    resolve, [doExtractTipset] returns that error, wrapped, before it
    looks at the destination: no directory is created, nothing is
    extracted. *)
Theorem doExtractTipset_unresolved n opts e (s : St) :
  retain opts = "accessed-cids" →
  tsk opts ≠ "" →
  ((∃ a, Split (tsk opts) ".." = [a] ∧ (ParseTipSetRef api (tsk opts)).2 = Some e)
   ∨ (∃ a b, Split (tsk opts) ".." = [a; b]
             ∧ ((ParseTipSetRef api a).2 = Some e
                ∨ (ParseTipSetRef api a).2 = None ∧ (ParseTipSetRef api b).2 = Some e))) →
  doExtractTipset api eng ar os extractFlags_retain n opts s
  = (Return (Wrap "failed to fetch tipset" e), s).
Proof.
  intros Hr Hk H. unfold doExtractTipset.
  rewrite bool_decide_false by (by intros H'; apply H').
  rewrite bool_decide_false by done.
  destruct H as [(a & -> & Hp) | (a & b & -> & [Ha | [Ha Hb]])].
  - destruct (ParseTipSetRef api (tsk opts)) as [ts err]. cbn in Hp. by subst err.
  - by rewrite Ha.
  - by rewrite Ha, Hb.
Qed.

Lemma fst_planned dir l : (planned os dir l).*1 = l.
Proof.
  induction l as [|c l IH]; [done|].
  destruct l as [|c' l]; [done|].
  rewrite planned_cons by done. by rewrite fmap_cons, IH.
Qed.

(** X19. On a valid range, that is when the parent chain from [right]
    reaches [left], [extractTipsetRange] ends once it may evaluate its
    loop condition as many times as the chain is long.  It extracts
    tipsets of the chain only, from [right] downwards without a gap; when
    it returns nil it has extracted the whole chain, [left] included.
    The chain holds no tipset twice, its heights decrease strictly. *)
Theorem extractTipsetRange_walks_chain left right dir l n (s : St) :
  chain api (types.Key left) right l →
  (length l ≤ n)%nat →
  ∃ r s' evs,
    extractTipsetRange api eng ar os extractFlags_retain n (Some left) (Some right) dir s
      = (r, s')
    ∧ r ≠ Unfinished
    ∧ trace s' = trace s ++ evs
    ∧ (visits evs).*1 `prefix_of` l
    ∧ (r = Val tt → (visits evs).*1 = l)
    ∧ NoDup l
    ∧ ∀ i j a b, l !! i = Some a → l !! j = Some b → (i < j)%nat →
                 types.Height b < types.Height a.
Proof.
  intros Hch Hn.
  destruct (extractTipsetRange_visits api eng ar os extractFlags_retain left right dir l n s
              Hch Hn) as (r & s' & evs & Hrun & Hfin & Htr & [k Hk] & Hok).
  pose proof (chain_decreasing api _ _ _ Hch) as Hdec.
  exists r, s', evs. repeat split; try done.
  - rewrite Hk, fmap_take, fst_planned. apply prefix_take.
  - intros Hr. destruct (Hok Hr) as [-> _]. apply fst_planned.
  - apply NoDup_alt. intros i j a Hi Hj.
    destruct (Nat.lt_trichotomy i j) as [Hlt | [-> | Hlt]]; [|done|].
    + specialize (Hdec i j a a Hi Hj Hlt). lia.
    + specialize (Hdec j i a a Hj Hi Hlt). lia.
Qed.

(** X20. One call of [extractTipset] reaches the file system at most
    once, through [writeVector] and at the path it was given: either it
    hands no vector over, then it did not return nil and the file system
    is as it was, or it hands over one vector, and what it returns is
    what [writeVector] returned. *)
Theorem extractTipset_writes_once ts path (s : St) r s' :
  extractTipset api eng ar os extractFlags_retain (Some ts) path s = (r, s') →
  (writes (added s s') = [] ∧ fs s' = fs s ∧ r ≠ Val tt)
  ∨ ∃ v, writes (added s s') = [(v, path)]
         ∧ fs s' = (writeVector os (fs s) v path).1
         ∧ (r = Val tt ↔ (writeVector os (fs s) v path).2 = None).
Proof.
  intros Hrun.
  destruct (extractTipset_added api eng ar os extractFlags_retain _ _ _ _ _ Hrun)
    as [_ [(v & _ & Hfs & -> & Htr) | (Hab & _ & Hfs & Htr)]];
    rewrite (added_app _ _ _ Htr).
  - right. exists v. split; [done|]. split; [done|].
    by destruct (writeVector os (fs s) v path).2.
  - left. split; [done|]. split; [done|]. intros ->. destruct Hab.
Qed.

Lemma packed_of_ok ms acc p :
  packed_of eng ms acc = Val p → p = acc ++ ((λ m, (Serialize eng m).1) <$> ms).
Proof.
  revert acc. induction ms as [|m ms IH]; intros acc; cbn [packed_of].
  - intros [= <-]. by rewrite app_nil_r.
  - rewrite fmap_cons. destruct (Serialize eng m) as [b [e|]]; cbn; [done|].
    intros H. apply IH in H as ->. by rewrite <- app_assoc.
Qed.

Lemma blocks_of_ok bs acc out :
  blocks_of api eng bs acc = Val out →
  ∃ new, out = acc ++ new ∧ Forall2 (packed api eng) bs new.
Proof.
  revert acc. induction bs as [|b bs IH]; intros acc; cbn [blocks_of].
  - intros [= <-]. exists []. by rewrite app_nil_r.
  - destruct (ChainGetBlockMessages api (types.BlockCid b)) as [[msgs|] [e|]] eqn:Hget;
      cbn; try done.
    destruct (packed_of eng (types.BlsMessages msgs) []) as [p1| | |] eqn:H1; cbn; try done.
    destruct (packed_of eng _ p1) as [p2| | |] eqn:H2; cbn; try done.
    apply packed_of_ok in H1 as ->. apply packed_of_ok in H2 as ->.
    intros H. apply IH in H as (new & -> & Hnew).
    eexists (_ :: new). split; [by rewrite <- app_assoc|].
    constructor; [|done]. exists msgs. cbn. split; [done|].
    unfold messagesOf. by rewrite fmap_app.
Qed.

(** X21. The vector of a successful extraction applies one tipset whose
    blocks are the blocks of the chain tipset in their order, each with
    its miner and win count, and whose messages are the serialized BLS
    messages of the block followed by its serialized secp messages, each
    list in the order the node gave. *)
Theorem extractTipset_packs_in_order ts path (s : St) s' :
  extractTipset api eng ar os extractFlags_retain (Some ts) path s = (Val tt, s') →
  ∃ v tipset,
    writes (added s s') = [(v, path)]
    ∧ schema.ApplyTipsets v = [tipset]
    ∧ Forall2 (packed api eng) (types.Blocks ts) (schema.Blocks tipset).
Proof.
  intros Hrun.
  destruct (extractTipset_added api eng ar os extractFlags_retain _ _ _ _ _ Hrun)
    as [_ [(v & Hv & _ & _ & Htr) | (Hab & _)]]; [|destruct Hab].
  apply assemble_inv in Hv
    as (blocks & b0 & bs & res & w1 & w2 & w3 & Hb & _ & _ & _ & _ & _ & _ & _
        & _ & _ & _ & ->).
  apply blocks_of_ok in Hb as (new & -> & Hnew).
  eexists _, _. rewrite (added_app _ _ _ Htr). by repeat split.
Qed.

Lemma blocks_of_app pre rest acc :
  blocks_of api eng (pre ++ rest) acc
  = rbind (blocks_of api eng pre acc) (λ a, blocks_of api eng rest a).
Proof.
  revert acc. induction pre as [|b pre IH]; intros acc; cbn [app blocks_of]; [done|].
  destruct (ChainGetBlockMessages api (types.BlockCid b)) as [[msgs|] [e|]]; cbn; try done.
  destruct (packed_of eng (types.BlsMessages msgs) []) as [p1| | |]; cbn; try done.
  destruct (packed_of eng _ p1) as [p2| | |]; cbn; try done.
Qed.

Lemma packed_of_packs ms acc :
  (∀ m, m ∈ ms → (Serialize eng m).2 = None) → ∃ p, packed_of eng ms acc = Val p.
Proof.
  revert acc. induction ms as [|m ms IH]; intros acc Hall; cbn [packed_of];
    [by eexists|].
  pose proof (Hall m ltac:(by left)) as Hm.
  destruct (Serialize eng m) as [b e]. cbn in Hm. subst e. cbn.
  apply IH. intros m' Hm'. apply Hall. by right.
Qed.

Lemma blocks_of_packs bs acc :
  Forall (packs api eng) bs → ∃ out, blocks_of api eng bs acc = Val out.
Proof.
  intros Hall. revert acc.
  induction Hall as [|b bs (msgs & Hget & Hser) _ IH]; intros acc; cbn [blocks_of];
    [by eexists|].
  rewrite Hget. cbn.
  destruct (packed_of_packs (types.BlsMessages msgs) []) as [p1 ->].
  { intros m Hm. apply Hser. unfold messagesOf. apply elem_of_app. by left. }
  cbn.
  destruct (packed_of_packs (types.Msg <$> types.SecpkMessages msgs) p1) as [p2 ->].
  { intros m Hm. apply Hser. unfold messagesOf. apply elem_of_app. by right. }
  cbn. apply IH.
Qed.

(** X22. When the node fails to give the messages of a block, the blocks
    before it being in order, [extractTipset] returns that error,
    wrapped, without executing anything: no vector is handed to
    [writeVector] and the file system is as it was. *)
Theorem extractTipset_block_unavailable ts path pre b post p e (s : St) :
  types.Blocks ts = pre ++ b :: post →
  Forall (packs api eng) pre →
  ChainGetBlockMessages api (types.BlockCid b) = (p, Some e) →
  let out := extractTipset api eng ar os extractFlags_retain (Some ts) path s in
  out.1 = Return (Wrap "failed to get block messages" e)
  ∧ writes (added s out.2) = []
  ∧ fs out.2 = fs s.
Proof.
  intros Hbs Hpre Hget out. subst out.
  assert (assemble api eng ar ts = Return (Wrap "failed to get block messages" e)) as Has.
  { unfold assemble. rewrite Hbs, blocks_of_app.
    destruct (blocks_of_packs pre [] Hpre) as [acc ->]. cbn [rbind blocks_of].
    by rewrite Hget. }
  destruct (extractTipset_assemble api eng ar os extractFlags_retain ts path s)
    as [lines ->].
  unfold extracted. rewrite Has. cbn [fst snd].
  split; [done|]. split; [|done].
  by rewrite (added_app s _ [EvExtractTipset ts path]).
Qed.

(** X23. Without a tracing blockstore [extractTipset] does not run the
    driver to the end of an extraction: it never returns nil, hands no
    vector to [writeVector] and leaves the file system as it was. *)
Theorem extractTipset_needs_tracing ts path (s : St) :
  blockstoreTraces eng = false →
  let out := extractTipset api eng ar os extractFlags_retain (Some ts) path s in
  aborted out.1 ∧ writes (added s out.2) = [] ∧ fs out.2 = fs s.
Proof.
  intros Htr out. subst out.
  assert (aborted (assemble api eng ar ts)) as Hab.
  { unfold assemble. pose proof (blocks_of_finishes api eng (types.Blocks ts) []) as Hf.
    destruct (blocks_of api eng (types.Blocks ts) []) as [blocks| | |]; cbn; try done.
    destruct (types.Blocks ts); cbn; [done|]. by rewrite Htr. }
  destruct (extractTipset_assemble api eng ar os extractFlags_retain ts path s)
    as [lines ->].
  unfold extracted.
  destruct (assemble api eng ar ts) as [v|e|w|]; try done; cbn [fst snd];
    (split; [done|]); (split; [|done]);
    by rewrite (added_app s _ [EvExtractTipset ts path]).
Qed.

(** X24. A vector [extractTipset] hands to [writeVector] can be replayed
    by [executeTestVector]: it carries its metadata and preconditions, so
    the replay does not panic, and its single variant, whose epoch is the
    height of the tipset, is dispatched once, to the tipset path. *)
Theorem extracted_vector_replays ts path (s : St) r s' v p rep (t : St) :
  extractTipset api eng ar os extractFlags_retain (Some ts) path s = (r, s') →
  EvWriteVector v p ∈ added s s' →
  let out := executeTestVector eng os rep v t in
  ∃ variant,
    dispatched (added t out.2) = [(false, v, variant)]
    ∧ schema.Epoch variant = types.Height ts
    ∧ out.1 = Val (conformance.reporter (ExecuteTipsetVector eng rep v variant),
                   (conformance.rerr (ExecuteTipsetVector eng rep v variant),
                    conformance.diffs (ExecuteTipsetVector eng rep v variant))).
Proof.
  intros Hrun Hin out. subst out.
  destruct (extractTipset_added api eng ar os extractFlags_retain _ _ _ _ _ Hrun)
    as [_ [(v' & Hv & _ & _ & Htr) | (_ & _ & _ & Htr)]];
    rewrite (added_app _ _ _ Htr) in Hin.
  2: { apply list_elem_of_singleton in Hin. discriminate. }
  apply elem_of_cons in Hin as [Hin | Hin]; [discriminate|].
  apply list_elem_of_singleton in Hin. injection Hin as <- <-.
  apply assemble_inv in Hv
    as (blocks & b0 & bs & res & w1 & w2 & w3 & _ & _ & _ & _ & _ & _ & _ & _
        & _ & _ & _ & Hv).
  destruct (executeTestVector_eq eng os rep v _ _ t
              ltac:(by rewrite Hv) ltac:(by rewrite Hv)) as [l ->].
  destruct (runVariants_tipset eng os rep v
              (schema.Variants
                 {| schema.Variants :=
                      [ {| schema.ID := GetProtocolCodename eng (types.Height ts);
                           schema.Epoch := types.Height ts;
                           schema.NetworkVersion :=
                             (StateNetworkVersion api (types.Key ts)).1 |} ];
                    schema.PreBaseFee := types.ParentBaseFee b0;
                    schema.PreStateTree :=
                      Some {| schema.RootCID := types.ParentState ts |} |})
              None [] (later l [] t) ltac:(by rewrite Hv)) as [l' ->].
  cbn [fst snd schema.Variants]. rewrite later_later, added_later. cbn [app].
  eexists. split; [by rewrite dispatched_tipset|]. split; [done|done].
Qed.

End ExtractMore.

(** ** The further properties on the small world *)

Lemma execVectorFile_unreadable_witness :
  ∃ e, execVectorFile demo.eng demo.os conformance.newLogReporter "in/b.json" demo.start
       = (Val (conformance.newLogReporter, (Some e, [])),
          tracing_more [EvOpen "in/b.json"] demo.start).
Proof.
  apply (execVectorFile_unreadable demo.eng demo.os conformance.newLogReporter
           "in/b.json" demo.start).
  right. vm_compute. congruence.
Defined.




(** The report of the first file holds the lines of its replay, and not
    the line that announces the file. *)
Example first_report :
  (filter (λ x, x.1 = "out/a.out") (logged demo.replayDir.2)).*2
  = [ "executing test vector: v1"; "applied message";
      "test vector succeeded for variant genesis" ].
Proof. vm_compute. reflexivity. Qed.

Lemma good_passes : passes demo.eng demo.os demo_more.good.
Proof. intros [[]] s; eexists _, _, _; vm_compute; reflexivity. Qed.

Lemma execVectors_decode_error_witness :
  (execVectors demo.eng demo.os conformance.newLogReporter demo_more.stream demo.start).1
  = Return (Error "invalid character").
Proof.
  refine (proj1 (execVectors_decode_error demo.eng demo.os conformance.newLogReporter
                   [(demo_more.good, None)] (demo.messageVector "" [])
                   (Error "invalid character") [(demo.twoVariants, None)] demo.start _)).
  constructor; [|constructor]. split; [reflexivity | apply good_passes].
Defined.

Lemma execVectors_unsupported_class_witness :
  (execVectors demo.eng demo.os conformance.newLogReporter
     [(demo.messageVector "block" [demo.variant "genesis" 1], None);
      (demo_more.good, None)] demo.start).1
  = Return (Error "test vector class block not supported").
Proof.
  refine (proj1 (execVectors_unsupported_class demo.eng demo.os conformance.newLogReporter
                   (demo.messageVector "block" [demo.variant "genesis" 1])
                   {| schema.MetaID := "v1"; schema.Gen := [] |}
                   {| schema.Variants := [demo.variant "genesis" 1];
                      schema.PreBaseFee := 100; schema.PreStateTree := None |}
                   [(demo_more.good, None)] demo.start _ _ _ _ _));
    (reflexivity || discriminate || (vm_compute; congruence)).
Defined.

Lemma runExec_refuses_witness :
  exec.runExec demo.eng demo.os (λ s, (s, None)) id (λ d _, (d, None))
    demo_more.flags [] demo.start
  = (Return (Error "no output directory provided"), demo.start).
Proof.
  destruct (runExec_refuses demo.eng demo.os (λ s, (s, None)) id (λ d _, (d, None))
              demo_more.flags [] demo.start) as (e & Hrun & He).
  - reflexivity.
  - discriminate.
  - left. split; reflexivity.
  - rewrite Hrun. by rewrite (He eq_refl eq_refl).
Defined.

Lemma doExtractTipset_refuses_witness :
  ∃ e, doExtractTipset demo.api demo.eng demo.ar demo.os "all" 1
         {| retain := "all"; tsk := "b10"; file := "out" |} demo.start
       = (Return e, demo.start).
Proof.
  apply (doExtractTipset_refuses demo.api demo.eng demo.ar demo.os "all" 1
           {| retain := "all"; tsk := "b10"; file := "out" |} demo.start).
  left. discriminate.
Defined.

Lemma doExtractTipset_unrecognized_witness :
  doExtractTipset demo.api demo.eng demo.ar demo.os "accessed-cids" 3
    {| retain := "accessed-cids"; tsk := "b10..b11..b12"; file := "out" |} demo.start
  = (Return (Error "unrecognized tipset format"), demo.start).
Proof.
  apply (doExtractTipset_unrecognized demo.api demo.eng demo.ar demo.os "accessed-cids" 3
           {| retain := "accessed-cids"; tsk := "b10..b11..b12"; file := "out" |}
           demo.start).
  - reflexivity.
  - vm_compute. lia.
Defined.

Lemma doExtractTipset_not_a_directory_witness :
  doExtractTipset demo.api demo.eng demo.ar demo.os "accessed-cids" 3
    {| retain := "accessed-cids"; tsk := "b10..b12"; file := "in/a.json" |} demo.start
  = (Return (Error "path is not a directory"), demo.start).
Proof.
  apply (doExtractTipset_not_a_directory demo.api demo.eng demo.ar demo.os
           "accessed-cids" 3
           {| retain := "accessed-cids"; tsk := "b10..b12"; file := "in/a.json" |}
           "b10" "b12" demo.start); reflexivity.
Defined.

Lemma doExtractTipset_unresolved_witness :
  doExtractTipset demo.api demo.eng demo.ar demo.os "accessed-cids" 3
    {| retain := "accessed-cids"; tsk := "b10..b99"; file := "out" |} demo.start
  = (Return (Wrap "failed to fetch tipset" (Error "tipset not found")), demo.start).
Proof.
  apply (doExtractTipset_unresolved demo.api demo.eng demo.ar demo.os "accessed-cids" 3
           {| retain := "accessed-cids"; tsk := "b10..b99"; file := "out" |}
           (Error "tipset not found") demo.start).
  - reflexivity.
  - discriminate.
  - right. exists "b10", "b99". split; [reflexivity|]. right. split; reflexivity.
Defined.

Lemma extractTipsetRange_walks_chain_witness :
  ∃ r s' evs,
    demo.range12 = (r, s')
    ∧ r ≠ Unfinished
    ∧ (visits evs).*1 `prefix_of` [demo.t12; demo.t11; demo.t10]
    ∧ NoDup [demo.t12; demo.t11; demo.t10].
Proof.
  destruct (extractTipsetRange_walks_chain demo.api demo.eng demo.ar demo.os
              "accessed-cids" demo.t10 demo.t12 "vectors"
              [demo.t12; demo.t11; demo.t10] 3 demo.start)
    as (r & s' & evs & Hrun & Hfin & _ & Hpre & _ & Hnd & _).
  - apply chain_step with demo.t11;
      [vm_compute; congruence | reflexivity | reflexivity |].
    apply chain_step with demo.t10;
      [vm_compute; congruence | reflexivity | reflexivity |].
    by apply chain_end.
  - simpl. lia.
  - exists r, s', evs. split; [exact Hrun|]. split; [exact Hfin|].
    split; [exact Hpre | exact Hnd].
Defined.

Lemma extractTipset_writes_once_witness :
  ∃ v, writes (added demo.start demo.extract12.2) = [(v, "vectors/t12.json")].
Proof.
  destruct (extractTipset_writes_once demo.api demo.eng demo.ar demo.os "accessed-cids"
              demo.t12 "vectors/t12.json" demo.start demo.extract12.1 demo.extract12.2)
    as [(_ & _ & Hne) | (v & Hw & _)].
  - exact (surjective_pairing demo.extract12).
  - exfalso. apply Hne. vm_compute. reflexivity.
  - exists v. exact Hw.
Defined.

Lemma extractTipset_packs_in_order_witness :
  ∃ v tipset,
    writes (added demo.start demo.extract12.2) = [(v, "vectors/t12.json")]
    ∧ schema.ApplyTipsets v = [tipset]
    ∧ schema.Messages <$> schema.Blocks tipset = [[[Byte.x01]; [Byte.x02; Byte.x03]]].
Proof.
  destruct (extractTipset_packs_in_order demo.api demo.eng demo.ar demo.os "accessed-cids"
              demo.t12 "vectors/t12.json" demo.start demo.extract12.2)
    as (v & tipset & Hw & Ha & Hp).
  - vm_compute. reflexivity.
  - exists v, tipset. split; [exact Hw|]. split; [exact Ha|].
    apply Forall2_cons_inv_l in Hp as (p & rest & (msgs & Hget & _ & _ & Hm) & Hrest & ->).
    apply Forall2_nil_inv_l in Hrest as ->.
    cbn. rewrite Hm. vm_compute in Hget. injection Hget as <-. reflexivity.
Defined.

Lemma extractTipset_block_unavailable_witness :
  (extractTipset demo_more.api_gone demo.eng demo.ar demo.os "accessed-cids"
     (Some demo_more.twoBlocks) "vectors/t12.json" demo.start).1
  = Return (Wrap "failed to get block messages" (Error "block not found")).
Proof.
  refine (proj1 (extractTipset_block_unavailable demo_more.api_gone demo.eng demo.ar
                   demo.os "accessed-cids" demo_more.twoBlocks "vectors/t12.json"
                   [demo.header "b12"] (demo.header "gone") [] None
                   (Error "block not found") demo.start _ _ _)).
  - reflexivity.
  - constructor; [|constructor]. eexists. split; [reflexivity|].
    intros m Hm. reflexivity.
  - reflexivity.
Defined.

Lemma extractTipset_needs_tracing_witness :
  (extractTipset demo.api demo_more.eng_untraced demo.ar demo.os "accessed-cids"
     (Some demo.t12) "vectors/t12.json" demo.start).1
  = Return (Error
      "requested 'accessed-cids' state retention, but no tracing blockstore was present").
Proof.
  destruct (extractTipset_needs_tracing demo.api demo_more.eng_untraced demo.ar demo.os
              "accessed-cids" demo.t12 "vectors/t12.json" demo.start) as (Hab & _).
  - reflexivity.
  - vm_compute. reflexivity.
Defined.

Lemma extracted_vector_replays_witness :
  ∃ variant,
    dispatched (added demo.start
                  (executeTestVector demo.eng demo.os conformance.newLogReporter
                     demo.vector12 demo.start).2)
    = [(false, demo.vector12, variant)]
    ∧ schema.Epoch variant = 12.
Proof.
  destruct (extracted_vector_replays demo.api demo.eng demo.ar demo.os "accessed-cids"
              demo.t12 "vectors/t12.json" demo.start (Val tt) demo.extract12.2
              demo.vector12 "vectors/t12.json" conformance.newLogReporter demo.start)
    as (variant & Hd & He & _).
  - vm_compute. reflexivity.
  - apply list_elem_of_In. vm_compute. right. left. reflexivity.
  - exists variant. split; [exact Hd | exact He].
Defined.
